(** * window-display-mcp: the display-state parameter engine

    A shallow embedding of the deterministic core of
    [src/window_display_mcp/server.py]: the waveform generator
    [_generate_oscillation], the trajectory interpolation of
    [_generate_preset_trajectory] and [generate_display_rhythmic_sequence],
    the keyframe sampling of [generate_display_attractor_prompt], the
    nearest-neighbour mapper [_extract_visual_vocabulary] and the distance
    calculator [compute_display_state_distance].

    Numbers.  Python [int] is [Z].  Python [float] is idealised as a real
    number ([R]): [math.sin], [math.sqrt] and [math.pi] are [sin], [sqrt]
    and [PI], arithmetic is exact, and binary64 rounding, overflow and NaN
    are outside the model.  The one non-finite value the source writes,
    [float("inf")], is kept ([xfloat]).  The nearest-neighbour mapper is
    embedded a second time, in [Module Float], over floats that may be
    infinite, NaN or too large to square, since what it does on such an
    input differs from what it does on a real number.

    Containers.  A [dict] used as a coordinate vector is a
    [gmap string R]; the registries, whose iteration order the code relies
    on, are association lists in source order.

    Results.  A raised Python exception is [Raise]; the JSON text a tool
    returns is modelled by the object that is serialised, an error object
    ([ErrorObj]) or a payload record ([Payload]). *)

From Stdlib Require Import Reals Lra.
From stdpp Require Import gmap strings list.

(** ** Python runtime *)

Module Py.

Inductive exn := KeyError | IndexError | ZeroDivisionError | OverflowError | ValueError.

Inductive result (A : Type) :=
| Raise (e : exn)
| Ret (a : A).
Arguments Raise {A} e.
Arguments Ret {A} a.

Definition bind {A B} (m : result A) (k : A → result B) : result B :=
  match m with
  | Raise e => Raise e
  | Ret a => k a
  end.

(** What a tool hands to [json.dumps]. *)
Inductive reply (A : Type) :=
| ErrorObj (msg : string)
| Payload (a : A).
Arguments ErrorObj {A} msg.
Arguments Payload {A} a.

(** A float that is finite, or [float("inf")]. *)
Inductive xfloat :=
| Fin (r : R)
| PosInf.

(** [x < y] on floats. *)
Definition Rltb (x y : R) : bool := if Rlt_dec x y then true else false.

(** [d < m] where [m] may be [float("inf")]. *)
Definition xltb (d : R) (m : xfloat) : bool :=
  match m with
  | Fin r => Rltb d r
  | PosInf => true
  end.

(** Nearest integer, ties to the even one. *)
Definition round_half_even (x : R) : Z :=
  let f := Int_part x in
  let d := (x - IZR f)%R in
  if Rlt_dec d (1 / 2) then f
  else if Rlt_dec (1 / 2) d then (f + 1)%Z
  else if Z.even f then f else (f + 1)%Z.

(** [round(x, 4)] *)
Definition round4 (x : R) : R := (IZR (round_half_even (x * 10000)) / 10000)%R.

Definition xround4 (m : xfloat) : xfloat :=
  match m with
  | Fin r => Fin (round4 r)
  | PosInf => PosInf
  end.

(** [int(x)]: truncation towards zero. *)
Definition int (x : R) : Z :=
  if Rle_dec 0 x then Int_part x else (- Int_part (- x))%Z.

(** [x % 1.0] *)
Definition mod1 (x : R) : R := frac_part x.

(** [range(n)] *)
Definition range (n : Z) : list Z := Z.of_nat <$> seq 0 (Z.to_nat n).

(** [enumerate(l)] *)
Definition enumerate {A} (l : list A) : list (Z * A) :=
  zip (Z.of_nat <$> seq 0 (length l)) l.

(** A slice bound [k] of a list of length [n], clamped as slicing does. *)
Definition clamp (n : nat) (k : Z) : nat :=
  if (k <? 0)%Z then Z.to_nat (Z.max 0 (Z.of_nat n + k)) else Nat.min (Z.to_nat k) n.

(** [l[k:]] and [l[:k]] *)
Definition slice_from {A} (k : Z) (l : list A) : list A := drop (clamp (length l) k) l.
Definition slice_to {A} (k : Z) (l : list A) : list A := take (clamp (length l) k) l.

(** [l[i]], negative indices counting from the end. *)
Definition index {A} (l : list A) (i : Z) : result A :=
  let j := if (i <? 0)%Z then (Z.of_nat (length l) + i)%Z else i in
  if (j <? 0)%Z then Raise IndexError
  else match l !! Z.to_nat j with
       | Some x => Ret x
       | None => Raise IndexError
       end.

(** [a // b] on ints. *)
Definition floordiv (a b : Z) : result Z :=
  if (b =? 0)%Z then Raise ZeroDivisionError else Ret (a / b)%Z.

(** [d[k]] on a dict. *)
Definition getitem {V} (d : gmap string V) (k : string) : result V :=
  match d !! k with
  | Some v => Ret v
  | None => Raise KeyError
  end.

(** [d[k]] and [k in d] on a registry (a dict whose order matters). *)
Fixpoint assoc {V} (d : list (string * V)) (k : string) : option V :=
  match d with
  | [] => None
  | (k', v) :: d' => if String.eqb k k' then Some v else assoc d' k
  end.

Definition getreg {V} (d : list (string * V)) (k : string) : result V :=
  match assoc d k with
  | Some v => Ret v
  | None => Raise KeyError
  end.

Definition contains {V} (d : list (string * V)) (k : string) : bool :=
  match assoc d k with
  | Some _ => true
  | None => false
  end.

(** [sep.join(parts)] *)
Fixpoint join (sep : string) (parts : list string) : string :=
  match parts with
  | [] => ""
  | [p] => p
  | p :: ps => p +:+ sep +:+ join sep ps
  end.

(** [repr] of a list of plain strings, as an f-string prints it. *)
Definition repr_list (l : list string) : string :=
  "[" +:+ join ", " ((λ s, "'" +:+ s +:+ "'") <$> l) +:+ "]".

End Py.

Import Py.

#[global] Instance result_ret : MRet result := @Ret.
#[global] Instance result_bind : MBind result := λ A B k m, bind m k.

(** ** Registries (module-level constants) *)

Open Scope R_scope.

Definition DISPLAY_PARAMETER_NAMES : list string :=
  [ "compositional_tension";
    "depth_complexity";
    "lighting_drama";
    "viewing_intimacy";
    "negative_space_ratio" ].

(** A dict literal over the five axes, in the order the source writes them. *)
Definition coords (ct dc ld vi ns : R) : gmap string R :=
  <["negative_space_ratio" := ns]>
  (<["viewing_intimacy" := vi]>
  (<["lighting_drama" := ld]>
  (<["depth_complexity" := dc]>
  (<["compositional_tension" := ct]> ∅)))).

Definition DISPLAY_STATE_COORDINATES : list (string * gmap string R) :=
  [ ("luxury_isolation",    coords 0.10 0.40 0.35 0.85 0.90);
    ("theatrical_drama",    coords 0.55 0.85 0.90 0.50 0.40);
    ("abundance_wall",      coords 0.95 0.10 0.15 0.20 0.10);
    ("editorial_minimal",   coords 0.15 0.15 0.50 0.80 0.85);
    ("immersive_spectacle", coords 0.75 0.95 0.95 0.45 0.25);
    ("curated_collection",  coords 0.45 0.60 0.35 0.55 0.55);
    ("narrative_journey",   coords 0.60 0.70 0.65 0.50 0.35) ].

Record preset := {
  preset_state_a : string;
  preset_state_b : string;
  preset_pattern : string;
  preset_num_cycles : Z;
  preset_steps_per_cycle : Z;
  preset_description : string
}.

Definition DISPLAY_RHYTHMIC_PRESETS : list (string * preset) :=
  [ ("seasonal_transition",
     {| preset_state_a := "editorial_minimal"; preset_state_b := "theatrical_drama";
        preset_pattern := "sinusoidal"; preset_num_cycles := 3; preset_steps_per_cycle := 24;
        preset_description :=
          "Smooth seasonal arc from restrained editorial to theatrical grandeur and back" |});
    ("day_night_cycle",
     {| preset_state_a := "curated_collection"; preset_state_b := "immersive_spectacle";
        preset_pattern := "sinusoidal"; preset_num_cycles := 4; preset_steps_per_cycle := 20;
        preset_description :=
          "Daylight curation dissolving into night-time spectacle lighting" |});
    ("intimacy_sweep",
     {| preset_state_a := "abundance_wall"; preset_state_b := "luxury_isolation";
        preset_pattern := "triangular"; preset_num_cycles := 2; preset_steps_per_cycle := 30;
        preset_description :=
          "Linear ramp from packed abundance to solitary luxury focus" |});
    ("drama_pulse",
     {| preset_state_a := "curated_collection"; preset_state_b := "immersive_spectacle";
        preset_pattern := "sinusoidal"; preset_num_cycles := 5; preset_steps_per_cycle := 16;
        preset_description :=
          "Rapid rhythmic pulse between restrained curation and full spectacle" |});
    ("narrative_shift",
     {| preset_state_a := "editorial_minimal"; preset_state_b := "narrative_journey";
        preset_pattern := "square"; preset_num_cycles := 4; preset_steps_per_cycle := 12;
        preset_description :=
          "Hard cuts between minimal editorial and storytelling progression" |}) ].

Record visual_type := {
  vt_coords : gmap string R;
  vt_keywords : list string
}.

Definition DISPLAY_VISUAL_TYPES : list (string * visual_type) :=
  [ ("luxury_restraint",
     {| vt_coords := coords 0.10 0.30 0.35 0.85 0.90;
        vt_keywords :=
          [ "single hero product in vast negative space";
            "soft directional key light with graduated shadows";
            "neutral matte backdrop";
            "precise golden-ratio placement";
            "intimate close-inspection viewing distance";
            "museum-quality isolation pedestal";
            "restrained monochromatic palette" ] |});
    ("theatrical_grandeur",
     {| vt_coords := coords 0.60 0.85 0.90 0.50 0.35;
        vt_keywords :=
          [ "dramatic three-zone depth staging foreground midground background";
            "high-contrast accent spotlights with hard-edged shadows";
            "sculptural uplighting from below at 25 degrees";
            "rich warm color temperature 3200K tungsten glow";
            "pyramidal composition rising to apex focal point";
            "theatrical curtain framing at window edges";
            "street-level pedestrian viewing geometry" ] |});
    ("abundance_energy",
     {| vt_coords := coords 0.95 0.10 0.15 0.20 0.10;
        vt_keywords :=
          [ "dense repetitive product grid filling entire window plane";
            "flat compressed 2D graphic composition";
            "bright even shadowless ambient illumination";
            "rhythmic scanning eye movement pattern";
            "maximum visual density minimal negative space";
            "bold pop-art color saturation";
            "passing-vehicle scale legibility" ] |});
    ("editorial_cool",
     {| vt_coords := coords 0.15 0.15 0.50 0.80 0.85;
        vt_keywords :=
          [ "minimal editorial composition with deliberate asymmetry";
            "crisp daylight-balanced cross-lighting at 5600K";
            "clean white or pale grey backdrop";
            "precise typographic-scale spatial intervals";
            "shallow depth single focal plane";
            "gallery-like negative space surrounding subject";
            "close-inspection detail-revealing perspective" ] |});
    ("spectacle_immersion",
     {| vt_coords := coords 0.75 0.95 0.95 0.45 0.25;
        vt_keywords :=
          [ "radial composition emanating from luminous center";
            "forced-perspective exaggerated depth staging";
            "theatrical uplighting creating monumental scale";
            "warm-to-cool color temperature gradient";
            "immersive wraparound environmental staging";
            "dynamic outward-from-center eye movement";
            "multiple overlapping depth planes" ] |}) ].

(** ** Phase 2.6 internal functions *)

(** [_generate_oscillation(num_steps, num_cycles, pattern)].  The test
    [t_norm < 0.5] is made here on the exact value of [t_norm].  In binary64
    the computed [t_norm] of a step that falls exactly on a half or a whole
    cycle can land one rounding step below it, and the square value is then
    the other of 0 and 1.  The general statements below about the waveform
    (length, range, the first value, the flat default, rotation by the
    phase offset) do not depend on the value at such a step; the worked
    examples use one cycle of four steps, whose quotients are exact in
    binary64. *)
Definition _generate_oscillation (num_steps : Z) (num_cycles : R) (pattern : string)
  : list R :=
  (λ i : Z,
     let t := 2 * PI * num_cycles * IZR i / IZR num_steps in
     if String.eqb pattern "sinusoidal" then
       0.5 * (1 + sin t)
     else if String.eqb pattern "triangular" then
       let t_norm := mod1 (t / (2 * PI)) in
       if Rltb t_norm 0.5 then 2 * t_norm else 2 * (1 - t_norm)
     else if String.eqb pattern "square" then
       let t_norm := mod1 (t / (2 * PI)) in
       if Rltb t_norm 0.5 then 0.0 else 1.0
     else
       0.5) <$> range num_steps.

(** The inner loop shared by [_generate_preset_trajectory] (lines 852-854)
    and [generate_display_rhythmic_sequence] (lines 1010-1012):
    [state = {}; for p in DISPLAY_PARAMETER_NAMES: state[p] = round(..., 4)]. *)
Definition interpolate_state (state_a state_b : gmap string R) (alpha : R)
  : result (gmap string R) :=
  foldl (λ acc p,
           state ← acc;
           a ← getitem state_a p;
           b ← getitem state_b p;
           mret (<[p := round4 (a * (1 - alpha) + b * alpha)]> state))
        (mret ∅) DISPLAY_PARAMETER_NAMES.

(** [_generate_preset_trajectory(preset_name)] *)
Definition _generate_preset_trajectory (preset_name : string)
  : result (list (gmap string R)) :=
  config ← getreg DISPLAY_RHYTHMIC_PRESETS preset_name;
  state_a ← getreg DISPLAY_STATE_COORDINATES (preset_state_a config);
  state_b ← getreg DISPLAY_STATE_COORDINATES (preset_state_b config);
  let total_steps := (preset_num_cycles config * preset_steps_per_cycle config)%Z in
  let alphas :=
    _generate_oscillation total_steps (IZR (preset_num_cycles config)) (preset_pattern config) in
  mapM (interpolate_state state_a state_b) alphas.

Record vocabulary := {
  vocab_nearest_type : string;
  vocab_distance : xfloat;
  vocab_keywords : list string;
  vocab_strength : R;
  vocab_state : gmap string R
}.

(** [sum((state.get(p, 0.5) - coords.get(p, 0.5)) ** 2 for p in DISPLAY_PARAMETER_NAMES)] *)
Definition dist_sq (state coords : gmap string R) : R :=
  foldl (λ acc p, acc + (default 0.5 (state !! p) - default 0.5 (coords !! p)) ^ 2)
        0 DISPLAY_PARAMETER_NAMES.

(** One iteration of the search loop over [DISPLAY_VISUAL_TYPES.items()];
    the loop state is [(min_dist, nearest_type)]. *)
Definition nearest_step (state : gmap string R)
    (acc : xfloat * option string) (item : string * visual_type)
  : xfloat * option string :=
  let dist := sqrt (dist_sq state (vt_coords item.2)) in
  if xltb dist acc.1 then (Fin dist, Some item.1) else acc.

Definition nearest_search (state : gmap string R)
    (types : list (string * visual_type)) : xfloat * option string :=
  foldl (nearest_step state) (PosInf, None) types.

(** [_extract_visual_vocabulary(state, strength)] *)
Definition _extract_visual_vocabulary (state : gmap string R) (strength : R)
  : result vocabulary :=
  let '(min_dist, nearest_type) := nearest_search state DISPLAY_VISUAL_TYPES in
  match nearest_type with
  | None => Raise KeyError
  | Some name =>
      type_def ← getreg DISPLAY_VISUAL_TYPES name;
      let keywords :=
        if Rltb strength 0.2 then take 3 (vt_keywords type_def)
        else if Rltb strength 0.5 then take 5 (vt_keywords type_def)
        else vt_keywords type_def in
      mret {| vocab_nearest_type := name;
              vocab_distance := xround4 min_dist;
              vocab_keywords := keywords;
              vocab_strength := strength;
              vocab_state := state |}
  end.

(** ** The mapper on arbitrary floats

    [_extract_visual_vocabulary] once more, for a [state] whose values are
    any Python floats.  Finite arithmetic stays exact; what is added is the
    behaviour of the non-finite values and of overflow, with the largest
    finite double as the overflow threshold. *)

Module Float.

(** A Python float: a finite value, an infinity or NaN. *)
Inductive float :=
| Num (r : R)
| Inf
| NegInf
| NaN.

(** [sys.float_info.max] *)
Definition float_max_Z : Z := Eval vm_compute in (2 ^ 1024 - 2 ^ 971)%Z.
Definition float_max : R := IZR float_max_Z.

(** [x - c], for [c] a coordinate of the registry (finite, between 0 and
    1): the difference of a finite [x] is finite. *)
Definition fsub (x : float) (c : R) : float :=
  match x with
  | Num a => Num (a - c)
  | Inf => Inf
  | NegInf => NegInf
  | NaN => NaN
  end.

(** [x ** 2]: the square of an infinity is [inf], of NaN is NaN; a finite
    square that overflows raises OverflowError. *)
Definition fsquare (x : float) : result float :=
  match x with
  | Num a => if Rltb float_max (a ^ 2) then Raise OverflowError else Ret (Num (a ^ 2))
  | Inf | NegInf => Ret Inf
  | NaN => Ret NaN
  end.

(** [x + y]: an addition that overflows gives an infinity and raises
    nothing. *)
Definition fadd (x y : float) : float :=
  match x, y with
  | NaN, _ | _, NaN => NaN
  | Inf, NegInf | NegInf, Inf => NaN
  | Inf, _ | _, Inf => Inf
  | NegInf, _ | _, NegInf => NegInf
  | Num a, Num b =>
      if Rltb float_max (a + b) then Inf
      else if Rltb (a + b) (- float_max) then NegInf
      else Num (a + b)
  end.

(** [math.sqrt(x)] *)
Definition fsqrt (x : float) : result float :=
  match x with
  | Num a => if Rltb a 0 then Raise ValueError else Ret (Num (sqrt a))
  | Inf => Ret Inf
  | NegInf => Raise ValueError
  | NaN => Ret NaN
  end.

(** [x < y]: false whenever either side is NaN. *)
Definition fltb (x y : float) : bool :=
  match x, y with
  | NaN, _ | _, NaN => false
  | Num a, Num b => Rltb a b
  | Num _, Inf => true
  | NegInf, Num _ | NegInf, Inf => true
  | _, _ => false
  end.

(** [round(x, 4)] *)
Definition fround4 (x : float) : float :=
  match x with
  | Num a => Num (round4 a)
  | Inf => Inf
  | NegInf => NegInf
  | NaN => NaN
  end.

Record vocabulary := {
  vocab_nearest_type : string;
  vocab_distance : float;
  vocab_keywords : list string;
  vocab_strength : float;
  vocab_state : gmap string float
}.

(** [sum((state.get(p, 0.5) - coords.get(p, 0.5)) ** 2 for p in DISPLAY_PARAMETER_NAMES)] *)
Definition dist_sq (state : gmap string float) (coords : gmap string R) : result float :=
  foldl (λ acc p,
           total ← acc;
           term ← fsquare (fsub (default (Num 0.5) (state !! p))
                                (default 0.5 (coords !! p)));
           mret (fadd total term))
        (Ret (Num 0)) DISPLAY_PARAMETER_NAMES.

(** One iteration of the search loop; the loop state is
    [(min_dist, nearest_type)]. *)
Definition nearest_step (state : gmap string float)
    (acc : result (float * option string)) (item : string * visual_type)
  : result (float * option string) :=
  best ← acc;
  d2 ← dist_sq state (vt_coords item.2);
  dist ← fsqrt d2;
  mret (if fltb dist best.1 then (dist, Some item.1) else best).

Definition nearest_search (state : gmap string float)
    (types : list (string * visual_type)) : result (float * option string) :=
  foldl (nearest_step state) (Ret (Inf, None)) types.

(** [_extract_visual_vocabulary(state, strength)] *)
Definition _extract_visual_vocabulary (state : gmap string float) (strength : float)
  : result vocabulary :=
  '(min_dist, nearest_type) ← nearest_search state DISPLAY_VISUAL_TYPES;
  match nearest_type with
  | None => Raise KeyError
  | Some name =>
      type_def ← getreg DISPLAY_VISUAL_TYPES name;
      let keywords :=
        if fltb strength (Num 0.2) then take 3 (vt_keywords type_def)
        else if fltb strength (Num 0.5) then take 5 (vt_keywords type_def)
        else vt_keywords type_def in
      mret {| vocab_nearest_type := name;
              vocab_distance := fround4 min_dist;
              vocab_keywords := keywords;
              vocab_strength := strength;
              vocab_state := state |}
  end.

End Float.

(** ** Phase 2.6 tools *)

Record seq_point := {
  sp_step : Z;
  sp_phase : R;
  sp_state : gmap string R
}.

Record seq_payload := {
  seq_state_a : string;
  seq_state_b : string;
  seq_pattern : string;
  seq_num_cycles : Z;
  seq_steps_per_cycle : Z;
  seq_total_steps : Z;
  seq_period : Z;
  seq_phase_offset : R;
  seq_sequence : list seq_point;
  seq_layer : string;
  seq_cost_tokens : Z
}.

Definition unknown_state (state_id : string) : string :=
  "Unknown state: " +:+ state_id +:+ ". Available: "
    +:+ repr_list (DISPLAY_STATE_COORDINATES.*1).

(** The phase rotation (lines 1003-1006). *)
Definition apply_phase_offset (phase_offset : R) (steps_per_cycle : Z)
    (alphas : list R) : list R :=
  if Rltb 0 phase_offset then
    let offset_steps := int (phase_offset * IZR steps_per_cycle) in
    slice_from offset_steps alphas ++ slice_to offset_steps alphas
  else alphas.

(** The loop over [enumerate(alphas)] that builds [sequence]
    (lines 1008-1017). *)
Definition sequence_points (state_a state_b : gmap string R) (alphas : list R)
  : result (list seq_point) :=
  mapM (λ '(i, alpha),
          state ← interpolate_state state_a state_b alpha;
          mret {| sp_step := i; sp_phase := round4 alpha; sp_state := state |})
       (enumerate alphas).

(** [generate_display_rhythmic_sequence(state_a_id, state_b_id,
    oscillation_pattern, num_cycles, steps_per_cycle, phase_offset)] *)
Definition generate_display_rhythmic_sequence
    (state_a_id state_b_id oscillation_pattern : string)
    (num_cycles steps_per_cycle : Z) (phase_offset : R)
  : result (reply seq_payload) :=
  if negb (contains DISPLAY_STATE_COORDINATES state_a_id) then
    mret (ErrorObj (unknown_state state_a_id))
  else if negb (contains DISPLAY_STATE_COORDINATES state_b_id) then
    mret (ErrorObj (unknown_state state_b_id))
  else
    state_a ← getreg DISPLAY_STATE_COORDINATES state_a_id;
    state_b ← getreg DISPLAY_STATE_COORDINATES state_b_id;
    let total_steps := (num_cycles * steps_per_cycle)%Z in
    let alphas := _generate_oscillation total_steps (IZR num_cycles) oscillation_pattern in
    let alphas := apply_phase_offset phase_offset steps_per_cycle alphas in
    sequence ← sequence_points state_a state_b alphas;
    mret (Payload {| seq_state_a := state_a_id;
                     seq_state_b := state_b_id;
                     seq_pattern := oscillation_pattern;
                     seq_num_cycles := num_cycles;
                     seq_steps_per_cycle := steps_per_cycle;
                     seq_total_steps := total_steps;
                     seq_period := steps_per_cycle;
                     seq_phase_offset := phase_offset;
                     seq_sequence := sequence;
                     seq_layer := "deterministic_composition";
                     seq_cost_tokens := 0 |}).

(** ** Phase 2.7 tools *)

Record keyframe := {
  kf_step : Z;
  kf_state : gmap string R;
  kf_vocabulary : vocabulary;
  kf_prompt : string
}.

(** [prompt_parts] joined with [", "]. *)
Definition prompt_of (style_modifier : string) (vocab : vocabulary) : string :=
  let prompt_parts :=
    (if String.eqb style_modifier "" then [] else [style_modifier])
      ++ ["Shop window display photograph:"] ++ vocab_keywords vocab in
  join ", " prompt_parts.

(** [indices] of the sequence branch (lines 1158-1160). *)
Definition keyframe_indices (total keyframe_count : Z) : result (list Z) :=
  q ← floordiv total keyframe_count;
  let step_size := Z.max 1 q in
  mret ((λ i : Z, Z.min (i * step_size) (total - 1)) <$> range keyframe_count).

(** The body of the loop over [indices] (lines 1163-1176). *)
Definition keyframe_at (trajectory : list (gmap string R))
    (style_modifier : string) (idx : Z) : result keyframe :=
  state ← index trajectory idx;
  vocab ← _extract_visual_vocabulary state 1.0;
  mret {| kf_step := idx; kf_state := state; kf_vocabulary := vocab;
          kf_prompt := prompt_of style_modifier vocab |}.

(** The sequence branch of [generate_display_attractor_prompt] once the
    trajectory is at hand (lines 1158-1176). *)
Definition sequence_keyframes (trajectory : list (gmap string R))
    (style_modifier : string) (keyframe_count : Z) : result (list keyframe) :=
  let total := Z.of_nat (length trajectory) in
  indices ← keyframe_indices total keyframe_count;
  mapM (keyframe_at trajectory style_modifier) indices.

(** The two payloads of the prompt tool; the constant fields ("mode",
    "layer", "cost_tokens") are left out, as in [distance_payload]. *)
Inductive attractor_payload :=
| SequencePrompts (preset_name description : string) (period : Z)
    (keyframe_count : Z) (keyframes : list keyframe)
| CompositePrompt (source prompt : string) (vocab : vocabulary).

(** [generate_display_attractor_prompt(preset_name, custom_state, mode,
    style_modifier, keyframe_count)] *)
Definition generate_display_attractor_prompt (preset_name : string)
    (custom_state : option (gmap string R)) (mode style_modifier : string)
    (keyframe_count : Z) : result (reply attractor_payload) :=
  if String.eqb mode "sequence" then
    if String.eqb preset_name "" || negb (contains DISPLAY_RHYTHMIC_PRESETS preset_name) then
      mret (ErrorObj ("Sequence mode requires valid preset_name. Available: "
                        +:+ repr_list (DISPLAY_RHYTHMIC_PRESETS.*1)))
    else
      trajectory ← _generate_preset_trajectory preset_name;
      keyframes ← sequence_keyframes trajectory style_modifier keyframe_count;
      config ← getreg DISPLAY_RHYTHMIC_PRESETS preset_name;
      mret (Payload (SequencePrompts preset_name (preset_description config)
                       (preset_steps_per_cycle config)
                       (Z.of_nat (length keyframes)) keyframes))
  else
    let composite (state : gmap string R) (source : string) :=
      vocab ← _extract_visual_vocabulary state 1.0;
      mret (Payload (CompositePrompt source (prompt_of style_modifier vocab) vocab)) in
    let named :=
      if negb (String.eqb preset_name "")
         && contains DISPLAY_STATE_COORDINATES preset_name then
        state ← getreg DISPLAY_STATE_COORDINATES preset_name;
        composite state ("canonical_state:" +:+ preset_name)
      else if negb (String.eqb preset_name "")
              && contains DISPLAY_RHYTHMIC_PRESETS preset_name then
        trajectory ← _generate_preset_trajectory preset_name;
        state ← index trajectory (Z.of_nat (length trajectory) / 2);
        composite state ("preset_midpoint:" +:+ preset_name)
      else
        mret (ErrorObj "Provide custom_state dict or valid preset_name/state name.") in
    match custom_state with
    | Some state =>
        (* [if custom_state:] an empty dict is falsy, like [None] *)
        if decide (state = ∅) then named else composite state "custom_state"
    | None => named
    end.

Record distance_payload := {
  dist_state_a : string;
  dist_state_b : string;
  euclidean_distance : R;
  parameter_differences : gmap string R
}.

(** The accumulation loop of [compute_display_state_distance]; the loop
    state is [(components, total_sq)]. *)
Definition distance_loop (a b : gmap string R) : result (gmap string R * R) :=
  foldl (λ acc p,
           '(components, total_sq) ← acc;
           bp ← getitem b p;
           ap ← getitem a p;
           let diff := bp - ap in
           mret (<[p := round4 diff]> components, total_sq + diff ^ 2))
        (mret (∅, 0.0)) DISPLAY_PARAMETER_NAMES.

(** [compute_display_state_distance(state_a_id, state_b_id)] *)
Definition compute_display_state_distance (state_a_id state_b_id : string)
  : result (reply distance_payload) :=
  if negb (contains DISPLAY_STATE_COORDINATES state_a_id) then
    mret (ErrorObj (unknown_state state_a_id))
  else if negb (contains DISPLAY_STATE_COORDINATES state_b_id) then
    mret (ErrorObj (unknown_state state_b_id))
  else
    a ← getreg DISPLAY_STATE_COORDINATES state_a_id;
    b ← getreg DISPLAY_STATE_COORDINATES state_b_id;
    '(components, total_sq) ← distance_loop a b;
    let distance := sqrt total_sq in
    mret (Payload {| dist_state_a := state_a_id;
                     dist_state_b := state_b_id;
                     euclidean_distance := round4 distance;
                     parameter_differences := components |}).

(** ** Further Phase 2.6 and 2.7 tools *)

Record preset_payload := {
  pp_preset : string;
  pp_description : string;
  pp_state_a : string;
  pp_state_b : string;
  pp_pattern : string;
  pp_period : Z;
  pp_num_cycles : Z;
  pp_total_steps : Z;
  pp_trajectory : list (gmap string R)
}.

(** [apply_display_rhythmic_preset(preset_name)]; the error object also
    carries the list of preset names under "available". *)
Definition apply_display_rhythmic_preset (preset_name : string)
  : result (reply preset_payload) :=
  if negb (contains DISPLAY_RHYTHMIC_PRESETS preset_name) then
    mret (ErrorObj ("Unknown preset: " +:+ preset_name))
  else
    config ← getreg DISPLAY_RHYTHMIC_PRESETS preset_name;
    trajectory ← _generate_preset_trajectory preset_name;
    mret (Payload {| pp_preset := preset_name;
                     pp_description := preset_description config;
                     pp_state_a := preset_state_a config;
                     pp_state_b := preset_state_b config;
                     pp_pattern := preset_pattern config;
                     pp_period := preset_steps_per_cycle config;
                     pp_num_cycles := preset_num_cycles config;
                     pp_total_steps := Z.of_nat (length trajectory);
                     pp_trajectory := trajectory |}).

(** [generate_display_sequence_prompts(preset_name, keyframe_count,
    style_modifier)]: [custom_state] keeps its default, [None]. *)
Definition generate_display_sequence_prompts (preset_name : string)
    (keyframe_count : Z) (style_modifier : string)
  : result (reply attractor_payload) :=
  generate_display_attractor_prompt preset_name None "sequence" style_modifier
    keyframe_count.

(** ** Layer 1: taxonomy tables *)

(** A number of a table that mixes [int] and [float] values. *)
Inductive num :=
| Int (z : Z)
| Float (r : R).

Definition num_R (n : num) : R :=
  match n with
  | Int z => IZR z
  | Float r => r
  end.

Record composition_spec := {
  ct_description : string;
  ct_eye_movement : string;
  ct_stability : string;
  ct_typical_ratios : list (string * num);
  ct_retail_contexts : list string
}.

Definition COMPOSITION_TYPES : list (string * composition_spec) :=
  [ ("pyramidal",
     {| ct_description := "Stable hierarchical arrangement with apex focal point";
        ct_eye_movement := "upward_convergent";
        ct_stability := "high";
        ct_typical_ratios := [("base_width", Float 1.0); ("apex_height", Float 0.618)];
        ct_retail_contexts := ["luxury"; "aspirational"; "hero_product"] |});
    ("step_progression",
     {| ct_description := "Zigzag or stair-step creating guided left-to-right scan";
        ct_eye_movement := "sequential_horizontal";
        ct_stability := "medium";
        ct_typical_ratios := [("step_height", Float 0.15); ("step_depth", Float 0.20)];
        ct_retail_contexts := ["storytelling"; "product_range"; "seasonal_narrative"] |});
    ("radial",
     {| ct_description := "Elements emanating from central focal point";
        ct_eye_movement := "outward_from_center";
        ct_stability := "dynamic";
        ct_typical_ratios := [("center_zone", Float 0.25); ("radiation_angle", Int 45)];
        ct_retail_contexts := ["celebration"; "abundance"; "variety"] |});
    ("isolation",
     {| ct_description := "Single element in negative space for maximum impact";
        ct_eye_movement := "immediate_focal_lock";
        ct_stability := "very_high";
        ct_typical_ratios := [("negative_space", Float 0.70); ("focal_offset", Float 0.382)];
        ct_retail_contexts := ["ultra_luxury"; "museum_quality"; "iconic_statement"] |});
    ("repetition",
     {| ct_description := "Rhythmic pattern creating visual momentum";
        ct_eye_movement := "scanning_rhythm";
        ct_stability := "medium";
        ct_typical_ratios := [("unit_spacing", Float 0.12); ("pattern_repeat", Int 5)];
        ct_retail_contexts := ["mass_appeal"; "variety"; "abundance"] |});
    ("triangular_cluster",
     {| ct_description := "Three focal points forming stable triangle composition";
        ct_eye_movement := "triangular_scan";
        ct_stability := "high";
        ct_typical_ratios := [("spacing", Float 0.30); ("vertex_angle", Int 60)];
        ct_retail_contexts := ["collection"; "coordinated_set"; "balanced_variety"] |}) ].

Record depth_spec := {
  ds_description : string;
  ds_depth_zones : Z;
  ds_viewing_distance : string;
  ds_spatial_compression : R
}.

Definition DEPTH_STAGING : list (string * depth_spec) :=
  [ ("compressed_2d",
     {| ds_description := "Flat graphic composition maximizing window glass plane";
        ds_depth_zones := 1;
        ds_viewing_distance := "close_inspection";
        ds_spatial_compression := 0.95 |});
    ("theatrical_depth",
     {| ds_description := "Strong foreground/midground/background separation";
        ds_depth_zones := 3;
        ds_viewing_distance := "street_level_15ft";
        ds_spatial_compression := 0.30 |});
    ("forced_perspective",
     {| ds_description := "Exaggerated depth using scale manipulation";
        ds_depth_zones := 4;
        ds_viewing_distance := "dramatic_distance_20ft";
        ds_spatial_compression := 0.15 |});
    ("shallow_focus",
     {| ds_description := "Photography-style depth with clear focal plane";
        ds_depth_zones := 2;
        ds_viewing_distance := "intimate_6ft";
        ds_spatial_compression := 0.60 |}) ].

Record lighting_spec := {
  lf_description : string;
  lf_key_angle : Z;
  lf_key_intensity_ratio : R;
  lf_fill_ratio : R;
  lf_color_temperature : Z;
  lf_shadow_quality : string
}.

Definition LIGHTING_FRAMEWORKS : list (string * lighting_spec) :=
  [ ("accent_dramatic",
     {| lf_description := "High-contrast accent spots creating sculptural shadows";
        lf_key_angle := 35; lf_key_intensity_ratio := 4.0; lf_fill_ratio := 0.25;
        lf_color_temperature := 3200; lf_shadow_quality := "hard_defined" |});
    ("soft_luxury",
     {| lf_description := "Even diffuse lighting with subtle modeling";
        lf_key_angle := 45; lf_key_intensity_ratio := 2.0; lf_fill_ratio := 0.60;
        lf_color_temperature := 4500; lf_shadow_quality := "soft_graduated" |});
    ("theatrical_uplight",
     {| lf_description := "Low-angle uplighting for drama and monumentality";
        lf_key_angle := -25; lf_key_intensity_ratio := 5.0; lf_fill_ratio := 0.15;
        lf_color_temperature := 2900; lf_shadow_quality := "theatrical_elongated" |});
    ("cool_modern",
     {| lf_description := "Daylight-balanced cross-lighting for dimensionality";
        lf_key_angle := 55; lf_key_intensity_ratio := 3.0; lf_fill_ratio := 0.40;
        lf_color_temperature := 5600; lf_shadow_quality := "crisp_natural" |});
    ("ambient_even",
     {| lf_description := "Shadowless illumination for pure color and form";
        lf_key_angle := 0; lf_key_intensity_ratio := 1.2; lf_fill_ratio := 0.90;
        lf_color_temperature := 4000; lf_shadow_quality := "minimal" |}) ].

Record sight_spec := {
  sl_description : string;
  sl_viewing_angle : Z;
  sl_viewing_distance_ft : Z;
  sl_eye_height_in : Z;
  sl_optimal_focal_height : R
}.

Definition SIGHT_LINE_GEOMETRY : list (string * sight_spec) :=
  [ ("street_pedestrian",
     {| sl_description := "Typical adult walking at sidewalk distance";
        sl_viewing_angle := 25; sl_viewing_distance_ft := 8; sl_eye_height_in := 64;
        sl_optimal_focal_height := 0.55 |});
    ("passing_vehicle",
     {| sl_description := "Driver or passenger in moving car";
        sl_viewing_angle := 15; sl_viewing_distance_ft := 20; sl_eye_height_in := 52;
        sl_optimal_focal_height := 0.50 |});
    ("close_inspection",
     {| sl_description := "Stopped viewer examining details";
        sl_viewing_angle := 45; sl_viewing_distance_ft := 3; sl_eye_height_in := 64;
        sl_optimal_focal_height := 0.60 |});
    ("elevated_view",
     {| sl_description := "Second-floor or elevated walkway perspective";
        sl_viewing_angle := -20; sl_viewing_distance_ft := 15; sl_eye_height_in := 120;
        sl_optimal_focal_height := 0.35 |}) ].

(** ** Layer 2: deterministic parameter mapping *)

(** [round(x, ndigits)] *)
Definition round_to (ndigits : nat) (x : R) : R :=
  IZR (round_half_even (x * 10 ^ ndigits)) / 10 ^ ndigits.

(** [x / y] on floats. *)
Definition fdiv (x y : R) : result R :=
  if Req_dec_T y 0 then Raise ZeroDivisionError else Ret (x / y).

(** [math.radians] and [math.degrees] *)
Definition radians (x : R) : R := x * (PI / 180).
Definition degrees (x : R) : R := x * (180 / PI).

(** [calculate_golden_ratio_offset(dimension, use_minor)] *)
Definition calculate_golden_ratio_offset (dimension : R) (use_minor : bool) : R :=
  let phi := 1.618033988749895 in
  if use_minor then dimension * (1 / phi)
  else dimension * (phi - 1).

Record focal_zone := {
  left_ft : R;
  right_ft : R;
  bottom_ft : R;
  top_ft : R
}.

Record viewing_cone := {
  effective_height_ft : R;
  horizontal_fov_deg : R;
  focal_zone_coords : focal_zone;
  viewing_angle_impact : string
}.

(** [calculate_viewing_cone(window_width_ft, window_height_ft,
    viewing_distance_ft, viewing_angle_deg)] *)
Definition calculate_viewing_cone
    (window_width_ft window_height_ft viewing_distance_ft viewing_angle_deg : R)
  : result viewing_cone :=
  let angle_rad := radians viewing_angle_deg in
  let effective_height := window_height_ft * cos angle_rad in
  ratio ← fdiv window_width_ft (2 * viewing_distance_ft);
  let horizontal_fov := 2 * atan ratio in
  let horizontal_fov_deg := degrees horizontal_fov in
  let focal_zone_left := window_width_ft * 0.30 in
  let focal_zone_right := window_width_ft * 0.70 in
  let focal_zone_bottom := window_height_ft * 0.35 in
  let focal_zone_top := window_height_ft * 0.65 in
  mret {| effective_height_ft := round_to 2 effective_height;
          horizontal_fov_deg := round_to 1 horizontal_fov_deg;
          focal_zone_coords :=
            {| left_ft := round_to 2 focal_zone_left;
               right_ft := round_to 2 focal_zone_right;
               bottom_ft := round_to 2 focal_zone_bottom;
               top_ft := round_to 2 focal_zone_top |};
          viewing_angle_impact :=
            if Rltb 30 (Rabs viewing_angle_deg) then "compressed" else "natural" |}.

Record window_dimensions := {
  width_ft : R;
  height_ft : R;
  aspect_ratio : R
}.

Record focal_point := {
  x_ft : R;
  y_ft : R;
  x_normalized : R;
  y_normalized : R
}.

Record composition_out := {
  co_type : string;
  co_primary_focal_point : focal_point;
  co_eye_movement_pattern : string;
  co_negative_space_ratio : num
}.

Record depth_zone := {
  distance_ft : R;
  scale : R
}.

Record depth_out := {
  do_strategy : string;
  do_zones : list (string * depth_zone);
  do_spatial_compression : R
}.

Record lighting_out := {
  lo_framework : string;
  lo_key_light_angle_deg : Z;
  lo_intensity_ratio : R;
  lo_fill_ratio : R;
  lo_color_temperature_k : Z;
  lo_shadow_quality : string
}.

Record viewing_out := {
  vo_viewer_context : string;
  vo_viewing_angle_deg : Z;
  vo_viewing_distance_ft : Z;
  vo_eye_height_in : Z;
  vo_viewing_cone : viewing_cone
}.

Record display_parameters := {
  dp_window_dimensions : window_dimensions;
  dp_composition : composition_out;
  dp_depth_staging : depth_out;
  dp_lighting : lighting_out;
  dp_viewing_geometry : viewing_out
}.

(** [_map_display_parameters_internal(window_width_ft, window_height_ft,
    composition_type, depth_staging, lighting_framework, viewer_context)] *)
Definition _map_display_parameters_internal (window_width_ft window_height_ft : R)
    (composition_type depth_staging lighting_framework viewer_context : string)
  : result display_parameters :=
  comp_specs ← getreg COMPOSITION_TYPES composition_type;
  depth_specs ← getreg DEPTH_STAGING depth_staging;
  light_specs ← getreg LIGHTING_FRAMEWORKS lighting_framework;
  sight_specs ← getreg SIGHT_LINE_GEOMETRY viewer_context;
  viewing_cone ← calculate_viewing_cone window_width_ft window_height_ft
                    (IZR (sl_viewing_distance_ft sight_specs))
                    (IZR (sl_viewing_angle sight_specs));
  focal ←
    (if String.eqb composition_type "pyramidal" then
       apex ← getreg (ct_typical_ratios comp_specs) "apex_height";
       mret (window_width_ft * 0.50, window_height_ft * num_R apex)
     else if String.eqb composition_type "isolation" then
       mret (window_width_ft * calculate_golden_ratio_offset 1.0 false,
             window_height_ft * sl_optimal_focal_height sight_specs)
     else if String.eqb composition_type "radial" then
       mret (window_width_ft * 0.50, window_height_ft * 0.50)
     else if String.eqb composition_type "triangular_cluster" then
       mret (window_width_ft * calculate_golden_ratio_offset 1.0 false,
             window_height_ft * 0.55)
     else
       mret (window_width_ft * 0.50,
             window_height_ft * sl_optimal_focal_height sight_specs));
  let focal_x := focal.1 in
  let focal_y := focal.2 in
  negative_space_ratio ←
    (if String.eqb composition_type "isolation" then
       getreg (ct_typical_ratios comp_specs) "negative_space"
     else if String.eqb composition_type "repetition" then mret (Float 0.20)
     else mret (Float 0.40));
  let depth_zones :=
    if (ds_depth_zones depth_specs =? 3)%Z then
      [ ("foreground", {| distance_ft := 1.0; scale := 1.0 |});
        ("midground", {| distance_ft := 3.5; scale := 0.75 |});
        ("background", {| distance_ft := 6.0; scale := 0.50 |}) ]
    else if (ds_depth_zones depth_specs =? 2)%Z then
      [ ("focal_plane", {| distance_ft := 2.0; scale := 1.0 |});
        ("background", {| distance_ft := 5.0; scale := 0.70 |}) ]
    else
      [ ("single_plane", {| distance_ft := 0.5; scale := 1.0 |}) ] in
  aspect ← fdiv window_width_ft window_height_ft;
  xn ← fdiv focal_x window_width_ft;
  yn ← fdiv focal_y window_height_ft;
  mret {| dp_window_dimensions :=
            {| width_ft := window_width_ft;
               height_ft := window_height_ft;
               aspect_ratio := round_to 2 aspect |};
          dp_composition :=
            {| co_type := composition_type;
               co_primary_focal_point :=
                 {| x_ft := round_to 2 focal_x;
                    y_ft := round_to 2 focal_y;
                    x_normalized := round_to 3 xn;
                    y_normalized := round_to 3 yn |};
               co_eye_movement_pattern := ct_eye_movement comp_specs;
               co_negative_space_ratio := negative_space_ratio |};
          dp_depth_staging :=
            {| do_strategy := depth_staging;
               do_zones := depth_zones;
               do_spatial_compression := ds_spatial_compression depth_specs |};
          dp_lighting :=
            {| lo_framework := lighting_framework;
               lo_key_light_angle_deg := lf_key_angle light_specs;
               lo_intensity_ratio := lf_key_intensity_ratio light_specs;
               lo_fill_ratio := lf_fill_ratio light_specs;
               lo_color_temperature_k := lf_color_temperature light_specs;
               lo_shadow_quality := lf_shadow_quality light_specs |};
          dp_viewing_geometry :=
            {| vo_viewer_context := viewer_context;
               vo_viewing_angle_deg := sl_viewing_angle sight_specs;
               vo_viewing_distance_ft := sl_viewing_distance_ft sight_specs;
               vo_eye_height_in := sl_eye_height_in sight_specs;
               vo_viewing_cone := viewing_cone |} |}.

(** [map_display_parameters(...)]: the mapping plus the two constant
    fields "layer" and "cost_tokens". *)
Definition map_display_parameters (window_width_ft window_height_ft : R)
    (composition_type depth_staging lighting_framework viewer_context : string)
  : result (display_parameters * string * Z) :=
  result ← _map_display_parameters_internal window_width_ft window_height_ft
             composition_type depth_staging lighting_framework viewer_context;
  mret (result, "deterministic_mapping", 0%Z).

(** ** Vocabulary of the statements *)

(** The three patterns the generator knows by name. *)
Definition recognised (pattern : string) : Prop :=
  pattern = "sinusoidal" ∨ pattern = "triangular" ∨ pattern = "square".

(** A coordinate vector that carries all five axes. *)
Definition has_axes (m : gmap string R) : Prop :=
  ∀ p, p ∈ DISPLAY_PARAMETER_NAMES → is_Some (m !! p).

(** A key of [DISPLAY_STATE_COORDINATES]. *)
Definition registered (state_id : string) : Prop :=
  is_Some (assoc DISPLAY_STATE_COORDINATES state_id).

(** What one point of the sequence holds, given the blend weight. *)
Definition point_of (state_a state_b : gmap string R) (i : nat) (alpha : R)
    (pt : seq_point) : Prop :=
  sp_step pt = Z.of_nat i ∧ sp_phase pt = round4 alpha
  ∧ ∀ p, p ∈ DISPLAY_PARAMETER_NAMES →
      ∃ x y, state_a !! p = Some x ∧ state_b !! p = Some y
             ∧ sp_state pt !! p = Some (round4 (x * (1 - alpha) + y * alpha)).

(** The value a vector has on an axis, 0.5 where it has none. *)
Definition axis (m : gmap string R) (p : string) : R := default 0.5 (m !! p).

(** Euclidean distance over the five axes, written out. *)
Definition euclidean (u v : gmap string R) : R :=
  sqrt ((axis u "compositional_tension" - axis v "compositional_tension") ^ 2
        + (axis u "depth_complexity" - axis v "depth_complexity") ^ 2
        + (axis u "lighting_drama" - axis v "lighting_drama") ^ 2
        + (axis u "viewing_intimacy" - axis v "viewing_intimacy") ^ 2
        + (axis u "negative_space_ratio" - axis v "negative_space_ratio") ^ 2).


(** An axis the mapper can measure on a float input: absent from the
    dictionary, or finite and of magnitude at most 1e150, so that no square
    overflows. *)
Definition moderate (state : gmap string Float.float) (p : string) : Prop :=
  state !! p = None
  ∨ ∃ x, state !! p = Some (Float.Num x) ∧ - 1e150 <= x <= 1e150.

(** An infinite or NaN value. *)
Definition nonfinite (v : Float.float) : Prop :=
  v = Float.Inf ∨ v = Float.NegInf ∨ v = Float.NaN.

(** The finite entries of a float dictionary, as real numbers. *)
Definition finite_part (state : gmap string Float.float) : gmap string R :=
  omap (λ v, match v with Float.Num r => Some r | _ => None end) state.

(** [min_dist] of the real-valued search, as a float. *)
Definition of_xfloat (m : xfloat) : Float.float :=
  match m with
  | Fin r => Float.Num r
  | PosInf => Float.Inf
  end.

(** The keyword slice chosen by [strength]. *)
Definition keyword_slice (strength : R) (kws : list string) : list string :=
  if Rltb strength 0.2 then take 3 kws
  else if Rltb strength 0.5 then take 5 kws
  else kws.

(** A value with at most two decimals, as every registry coordinate is. *)
Definition centesimal (v : R) : Prop := ∃ n : Z, v * 100 = IZR n.

(** The five axes as a set of keys. *)
Definition axes : gset string := list_to_set DISPLAY_PARAMETER_NAMES.

(** The four names of a parameter mapping are keys of their tables. *)
Definition known_configuration
    (composition_type depth_staging lighting_framework viewer_context : string) : Prop :=
  is_Some (assoc COMPOSITION_TYPES composition_type)
  ∧ is_Some (assoc DEPTH_STAGING depth_staging)
  ∧ is_Some (assoc LIGHTING_FRAMEWORKS lighting_framework)
  ∧ is_Some (assoc SIGHT_LINE_GEOMETRY viewer_context).

(** * Properties *)

(** ** The runtime model *)

Section runtime.

Lemma Rltb_true x y : Rltb x y = true ↔ x < y.
Proof. unfold Rltb. destruct (Rlt_dec x y); intuition congruence. Qed.

Lemma Rltb_false x y : Rltb x y = false ↔ y <= x.
Proof. unfold Rltb. destruct (Rlt_dec x y); split; intros; try congruence; lra. Qed.

Lemma Int_part_IZR (z : Z) : Int_part (IZR z) = z.
Proof. symmetry. apply Int_part_spec. lra. Qed.

Lemma round_half_even_IZR (z : Z) : round_half_even (IZR z) = z.
Proof.
  unfold round_half_even. rewrite Int_part_IZR.
  destruct (Rlt_dec _ _) as [_|H]; [done|]. exfalso. apply H. lra.
Qed.

(** A value that already has four decimals is left alone. *)
Lemma round4_decimal (z : Z) (x : R) : x * 10000 = IZR z → round4 x = x.
Proof.
  intros H. unfold round4. rewrite H, round_half_even_IZR. lra.
Qed.

Lemma round4_0 : round4 0 = 0.
Proof. apply (round4_decimal 0). lra. Qed.

(** [round4] moves a value by at most half a unit of the fourth decimal,
    and lands on a multiple of [10^-4]. *)
Lemma round_half_even_near (x : R) :
  - (1 / 2) <= IZR (round_half_even x) - x <= 1 / 2.
Proof.
  unfold round_half_even.
  destruct (base_fp x) as [H0 H1]. unfold frac_part in H0, H1.
  repeat destruct (Rlt_dec _ _); try destruct (Z.even _);
    rewrite ?plus_IZR; lra.
Qed.

Lemma round4_near (x : R) : - (5 / 100000) <= round4 x - x <= 5 / 100000.
Proof.
  unfold round4. pose proof (round_half_even_near (x * 10000)) as H. lra.
Qed.

Lemma clamp_le (n : nat) (k : Z) : (clamp n k ≤ n)%nat.
Proof. unfold clamp. destruct (Z.ltb_spec k 0); lia. Qed.

Lemma clamp_nonneg (n : nat) (k : Z) :
  (0 <= k)%Z → clamp n k = Nat.min (Z.to_nat k) n.
Proof. intros H. unfold clamp. destruct (Z.ltb_spec k 0); [lia|done]. Qed.

Lemma length_range (n : Z) : length (range n) = Z.to_nat n.
Proof. unfold range. by rewrite length_fmap, length_seq. Qed.

Lemma lookup_range (n : Z) (i : nat) :
  (i < Z.to_nat n)%nat → range n !! i = Some (Z.of_nat i).
Proof.
  intros H. unfold range. rewrite list_lookup_fmap, lookup_seq_lt by done. done.
Qed.

Lemma length_enumerate {A} (l : list A) : length (enumerate l) = length l.
Proof.
  unfold enumerate. rewrite length_zip_with, length_fmap, length_seq. lia.
Qed.

Lemma lookup_enumerate {A} (l : list A) (i : nat) (x : A) :
  l !! i = Some x → enumerate l !! i = Some (Z.of_nat i, x).
Proof.
  intros H. unfold enumerate. apply lookup_zip_with_Some.
  exists (Z.of_nat i), x. split_and!; [done| |done].
  rewrite list_lookup_fmap, lookup_seq_lt; [done|]. by eapply lookup_lt_Some.
Qed.

(** [mapM] in the exception monad succeeds exactly when every call does. *)
Lemma mapM_Ret {A B} (f : A → result B) (l : list A) (k : list B) :
  mapM f l = Ret k ↔ Forall2 (λ x y, f x = Ret y) l k.
Proof.
  revert k. induction l as [|x l IH]; intros k; simpl.
  - split; [intros [= <-]; constructor | by inversion 1].
  - unfold mbind, result_bind. simpl. destruct (f x) as [e|y] eqn:Hfx; simpl.
    + split; [done | inversion 1; congruence].
    + destruct (mapM f l) as [e|k'] eqn:Hl; simpl.
      * split; [done|]. inversion 1 as [|? y' ? k'' Hy Hk]; subst.
        apply IH in Hk. congruence.
      * split.
        -- intros [= <-]. constructor; [done|]. by apply IH.
        -- inversion 1 as [|? y' ? k'' Hy Hk]; subst. apply IH in Hk.
           unfold mret, result_ret. congruence.
Qed.

Lemma mapM_total {A B} (f : A → result B) (l : list A) :
  (∀ x, x ∈ l → ∃ y, f x = Ret y) →
  ∃ k, mapM f l = Ret k.
Proof.
  induction l as [|x l IH]; intros H.
  - by exists [].
  - destruct (H x) as [y Hy]; [left|].
    destruct IH as [k Hk]; [intros; apply H; by right|].
    exists (y :: k). apply mapM_Ret. constructor; [done | by apply mapM_Ret].
Qed.

End runtime.

(** ** Waveform generator *)

Section waveform.

Lemma generate_oscillation_length (num_steps : Z) (num_cycles : R) (pattern : string) :
  length (_generate_oscillation num_steps num_cycles pattern) = Z.to_nat num_steps.
Proof. unfold _generate_oscillation. by rewrite length_fmap, length_range. Qed.

Lemma mod1_bounds (x : R) : 0 <= mod1 x < 1.
Proof. unfold mod1. destruct (base_fp x). lra. Qed.

Lemma generate_oscillation_unit (num_steps : Z) (num_cycles : R) (pattern : string) :
  Forall (λ v, 0 <= v <= 1) (_generate_oscillation num_steps num_cycles pattern).
Proof.
  unfold _generate_oscillation. apply Forall_fmap, Forall_forall. intros i _. simpl.
  repeat destruct (String.eqb _ _).
  - pose proof (SIN_bound (2 * PI * num_cycles * IZR i / IZR num_steps)). lra.
  - pose proof (mod1_bounds (2 * PI * num_cycles * IZR i / IZR num_steps / (2 * PI))).
    destruct (Rltb _ _) eqn:E; [apply Rltb_true in E | apply Rltb_false in E]; lra.
  - destruct (Rltb _ _); lra.
  - lra.
Qed.


End waveform.

(** ** Coordinate vectors and the registries *)

Section registries.

Lemma elem_of_parameter_names (p : string) :
  p ∈ DISPLAY_PARAMETER_NAMES ↔
  p = "compositional_tension" ∨ p = "depth_complexity" ∨ p = "lighting_drama"
  ∨ p = "viewing_intimacy" ∨ p = "negative_space_ratio".
Proof. unfold DISPLAY_PARAMETER_NAMES. rewrite !elem_of_cons, elem_of_nil. tauto. Qed.

Lemma coords_has_axes ct dc ld vi ns : has_axes (coords ct dc ld vi ns).
Proof.
  intros p Hp. apply elem_of_parameter_names in Hp. unfold coords.
  destruct Hp as [->|[->|[->|[->| ->]]]]; by simplify_map_eq.
Qed.

Lemma registered_has_axes (state_id : string) (st : gmap string R) :
  assoc DISPLAY_STATE_COORDINATES state_id = Some st → has_axes st.
Proof.
  unfold DISPLAY_STATE_COORDINATES. simpl.
  repeat (destruct (String.eqb state_id _); [intros [= <-]; apply coords_has_axes|]).
  done.
Qed.

Lemma contains_registered (state_id : string) :
  contains DISPLAY_STATE_COORDINATES state_id = true ↔ registered state_id.
Proof.
  unfold contains, registered. destruct (assoc _ _); split; try done.
Qed.

Lemma has_axes_values (m : gmap string R) :
  has_axes m →
  ∃ ct dc ld vi ns,
    m !! "compositional_tension" = Some ct ∧ m !! "depth_complexity" = Some dc
    ∧ m !! "lighting_drama" = Some ld ∧ m !! "viewing_intimacy" = Some vi
    ∧ m !! "negative_space_ratio" = Some ns.
Proof.
  intros H.
  destruct (H "compositional_tension") as [ct ?]; [apply elem_of_parameter_names; tauto|].
  destruct (H "depth_complexity") as [dc ?]; [apply elem_of_parameter_names; tauto|].
  destruct (H "lighting_drama") as [ld ?]; [apply elem_of_parameter_names; tauto|].
  destruct (H "viewing_intimacy") as [vi ?]; [apply elem_of_parameter_names; tauto|].
  destruct (H "negative_space_ratio") as [ns ?]; [apply elem_of_parameter_names; tauto|].
  by exists ct, dc, ld, vi, ns.
Qed.

(** The interpolation loop over two complete vectors returns, and writes
    the rounded blend on every axis. *)
Lemma interpolate_state_Ret (state_a state_b : gmap string R) (alpha : R) :
  has_axes state_a → has_axes state_b →
  ∃ st, interpolate_state state_a state_b alpha = Ret st
        ∧ ∀ p, p ∈ DISPLAY_PARAMETER_NAMES →
            ∃ x y, state_a !! p = Some x ∧ state_b !! p = Some y
                   ∧ st !! p = Some (round4 (x * (1 - alpha) + y * alpha)).
Proof.
  intros (a1 & a2 & a3 & a4 & a5 & Ha1 & Ha2 & Ha3 & Ha4 & Ha5)%has_axes_values
         (b1 & b2 & b3 & b4 & b5 & Hb1 & Hb2 & Hb3 & Hb4 & Hb5)%has_axes_values.
  unfold interpolate_state, DISPLAY_PARAMETER_NAMES. simpl.
  unfold getitem. rewrite Ha1, Ha2, Ha3, Ha4, Ha5, Hb1, Hb2, Hb3, Hb4, Hb5. simpl.
  eexists. split; [reflexivity|].
  intros p Hp. apply elem_of_parameter_names in Hp.
  destruct Hp as [->|[->|[->|[->| ->]]]]; eexists _, _; split_and!; try done;
    by simplify_map_eq.
Qed.

End registries.

(** ** Trajectory interpolation and the sequence tool *)

Section sequence.

Lemma sequence_points_Ret (state_a state_b : gmap string R) (alphas : list R) :
  has_axes state_a → has_axes state_b →
  ∃ pts, sequence_points state_a state_b alphas = Ret pts
         ∧ length pts = length alphas
         ∧ ∀ i alpha, alphas !! i = Some alpha →
             ∃ pt, pts !! i = Some pt ∧ point_of state_a state_b i alpha pt.
Proof.
  intros Ha Hb. unfold sequence_points.
  destruct (mapM_total
    (λ '(i, alpha), state ← interpolate_state state_a state_b alpha;
       mret {| sp_step := i; sp_phase := round4 alpha; sp_state := state |})
    (enumerate alphas)) as [pts Hpts].
  { intros [i alpha] _.
    destruct (interpolate_state_Ret state_a state_b alpha Ha Hb) as (st & -> & _).
    by eexists. }
  exists pts. split; [done|]. apply mapM_Ret in Hpts.
  split.
  { apply Forall2_length in Hpts. by rewrite length_enumerate in Hpts. }
  intros i alpha Hi. apply lookup_enumerate in Hi.
  destruct (Forall2_lookup_l _ _ _ _ _ Hpts Hi) as (pt & Hpt & Hf).
  exists pt. split; [done|].
  destruct (interpolate_state_Ret state_a state_b alpha Ha Hb) as (st & Hst & Hax).
  rewrite Hst in Hf. injection Hf as <-. done.
Qed.

Lemma length_apply_phase_offset (phase_offset : R) (steps_per_cycle : Z) (alphas : list R) :
  length (apply_phase_offset phase_offset steps_per_cycle alphas) = length alphas.
Proof.
  unfold apply_phase_offset. destruct (Rltb _ _); [|done].
  unfold slice_from, slice_to.
  rewrite length_app, length_drop, length_take.
  pose proof (clamp_le (length alphas) (int (phase_offset * IZR steps_per_cycle))).
  lia.
Qed.


Lemma apply_phase_offset_nonpos (phase_offset : R) (steps_per_cycle : Z) (alphas : list R) :
  phase_offset <= 0 → apply_phase_offset phase_offset steps_per_cycle alphas = alphas.
Proof.
  intros H. unfold apply_phase_offset.
  by rewrite (proj2 (Rltb_false 0 phase_offset)).
Qed.

Lemma Int_part_nonneg (x : R) : 0 <= x → (0 <= Int_part x)%Z.
Proof.
  intros H. destruct (base_Int_part x) as [H1 H2].
  assert (IZR (-1) < IZR (Int_part x)) as Hlt by lra.
  apply lt_IZR in Hlt. lia.
Qed.

Lemma Int_part_lt (x : R) (n : Z) : x < IZR n → (Int_part x < n)%Z.
Proof.
  intros H. destruct (base_Int_part x) as [H1 H2]. apply lt_IZR. lra.
Qed.

Lemma int_nonneg (x : R) : 0 <= x → int x = Int_part x.
Proof. intros H. unfold int. by destruct (Rle_dec 0 x). Qed.

(** Slicing at [k] with [0 <= k <= len] is the cyclic left rotation by [k]. *)
Lemma slices_rotate {A} (k : Z) (l : list A) :
  (0 <= k <= Z.of_nat (length l))%Z →
  slice_from k l ++ slice_to k l = rotate (Z.to_nat k) l.
Proof.
  intros Hk. unfold slice_from, slice_to, rotate.
  rewrite clamp_nonneg by lia.
  destruct (decide (Z.to_nat k = length l)) as [E|E].
  - rewrite E, Nat.min_id, Nat.Div0.mod_same.
    by rewrite drop_all, firstn_all, drop_0, take_0, app_nil_r.
  - rewrite Nat.min_l by lia. by rewrite Nat.mod_small by lia.
Qed.


Lemma apply_phase_offset_unit (phase_offset : R) (steps_per_cycle : Z) (alphas : list R) :
  0 <= phase_offset < 1 → (0 < steps_per_cycle <= Z.of_nat (length alphas))%Z →
  apply_phase_offset phase_offset steps_per_cycle alphas
  = rotate (Z.to_nat (Int_part (phase_offset * IZR steps_per_cycle))) alphas.
Proof.
  intros Hp Hs. unfold apply_phase_offset.
  assert (0 < IZR steps_per_cycle) by (apply IZR_lt; lia).
  destruct (Rltb 0 phase_offset) eqn:E.
  - assert (0 <= phase_offset * IZR steps_per_cycle) as H0 by nra.
    cbv zeta. rewrite (int_nonneg _ H0). apply slices_rotate.
    pose proof (Int_part_nonneg _ H0).
    assert (phase_offset * IZR steps_per_cycle < IZR steps_per_cycle) as Hlt by nra.
    apply Int_part_lt in Hlt. lia.
  - apply Rltb_false in E. replace phase_offset with 0 by lra.
    rewrite Rmult_0_l. replace 0 with (IZR 0) by done. rewrite Int_part_IZR.
    unfold rotate. destruct alphas; [done|].
    by rewrite Nat.Div0.mod_0_l, drop_0, take_0, app_nil_r.
Qed.



(** With both identifiers registered the tool never answers with an error
    object and never raises: it returns a payload that echoes its inputs
    and holds one point per element of the (rotated) waveform. *)
Lemma rhythmic_sequence_Payload (state_a_id state_b_id pattern : string)
    (num_cycles steps_per_cycle : Z) (phase_offset : R) :
  registered state_a_id → registered state_b_id →
  ∃ state_a state_b pts,
    assoc DISPLAY_STATE_COORDINATES state_a_id = Some state_a
    ∧ assoc DISPLAY_STATE_COORDINATES state_b_id = Some state_b
    ∧ sequence_points state_a state_b
        (apply_phase_offset phase_offset steps_per_cycle
           (_generate_oscillation (num_cycles * steps_per_cycle) (IZR num_cycles) pattern))
      = Ret pts
    ∧ length pts = Z.to_nat (num_cycles * steps_per_cycle)
    ∧ generate_display_rhythmic_sequence state_a_id state_b_id pattern
        num_cycles steps_per_cycle phase_offset
      = Ret (Payload {| seq_state_a := state_a_id;
                        seq_state_b := state_b_id;
                        seq_pattern := pattern;
                        seq_num_cycles := num_cycles;
                        seq_steps_per_cycle := steps_per_cycle;
                        seq_total_steps := num_cycles * steps_per_cycle;
                        seq_period := steps_per_cycle;
                        seq_phase_offset := phase_offset;
                        seq_sequence := pts;
                        seq_layer := "deterministic_composition";
                        seq_cost_tokens := 0 |}).
Proof.
  intros Ha Hb.
  pose proof Ha as [sa Hsa]. pose proof Hb as [sb Hsb].
  apply contains_registered in Ha. apply contains_registered in Hb.
  destruct (sequence_points_Ret sa sb
    (apply_phase_offset phase_offset steps_per_cycle
       (_generate_oscillation (num_cycles * steps_per_cycle) (IZR num_cycles) pattern)))
    as (pts & Hpts & Hlen & _); [by eapply registered_has_axes..|].
  exists sa, sb, pts. split_and!; try done.
  { by rewrite Hlen, length_apply_phase_offset, generate_oscillation_length. }
  unfold generate_display_rhythmic_sequence. rewrite Ha, Hb. simpl.
  unfold getreg. rewrite Hsa, Hsb. simpl.
  unfold mbind, result_bind. simpl. by rewrite Hpts.
Qed.

End sequence.

(** ** Claims on the waveform generator and the sequence tool *)

Section sequence_claims.


Lemma luxury_isolation_registered : registered "luxury_isolation".
Proof. by eexists. Qed.

Lemma theatrical_drama_registered : registered "theatrical_drama".
Proof. by eexists. Qed.





(** C2: for a positive [total_steps] L, a positive [num_cycles] and a
    recognised pattern, the generator returns exactly L values, each in
    the closed interval from 0 to 1. *)
Theorem waveform_length_and_range (L : Z) (num_cycles : R) (pattern : string) :
  (0 < L)%Z → 0 < num_cycles → recognised pattern →
  Z.of_nat (length (_generate_oscillation L num_cycles pattern)) = L
  ∧ Forall (λ v, 0 <= v <= 1) (_generate_oscillation L num_cycles pattern).
Proof.
  intros HL _ _. split.
  - rewrite generate_oscillation_length. lia.
  - apply generate_oscillation_unit.
Qed.

Lemma waveform_length_and_range_witness :
  Z.of_nat (length (_generate_oscillation 24 3 "sinusoidal")) = 24%Z
  ∧ Forall (λ v, 0 <= v <= 1) (_generate_oscillation 24 3 "sinusoidal").
Proof.
  apply (waveform_length_and_range 24 3 "sinusoidal"); [lia | lra | by left].
Defined.

(** C3: for two complete coordinate vectors A and B and a waveform of
    length L with every element in the closed interval from 0 to 1, both
    interpolation loops return exactly L vectors, and on each of the five
    axes the value is A[axis]*(1-alpha) + B[axis]*alpha rounded to four
    decimals. *)
Theorem interpolation_blend (A B : gmap string R) (alphas : list R) :
  has_axes A → has_axes B → Forall (λ alpha, 0 <= alpha <= 1) alphas →
  ∃ pts traj,
    sequence_points A B alphas = Ret pts
    ∧ mapM (interpolate_state A B) alphas = Ret traj
    ∧ length pts = length alphas ∧ length traj = length alphas
    ∧ ∀ i alpha, alphas !! i = Some alpha →
        ∃ pt st, pts !! i = Some pt ∧ traj !! i = Some st ∧ sp_state pt = st
          ∧ ∀ p, p ∈ DISPLAY_PARAMETER_NAMES →
              ∃ x y, A !! p = Some x ∧ B !! p = Some y
                     ∧ st !! p = Some (round4 (x * (1 - alpha) + y * alpha)).
Proof.
  intros HA HB _.
  destruct (sequence_points_Ret A B alphas HA HB) as (pts & Hpts & Hlen & Hpt).
  destruct (mapM_total (interpolate_state A B) alphas) as [traj Htraj].
  { intros alpha _. destruct (interpolate_state_Ret A B alpha HA HB) as (st & -> & _).
    by eexists. }
  exists pts, traj. split_and!; try done.
  { apply mapM_Ret, Forall2_length in Htraj. done. }
  intros i alpha Hi.
  destruct (Hpt i alpha Hi) as (pt & Hi' & _ & _ & Hax).
  apply mapM_Ret in Htraj as Hf.
  destruct (Forall2_lookup_l _ _ _ _ _ Hf Hi) as (st & Hst & Hint).
  exists pt, st. split_and!; try done.
  - pose proof Hpts as Hpts'. unfold sequence_points in Hpts'.
    apply mapM_Ret in Hpts'.
    destruct (Forall2_lookup_l _ _ _ _ _ Hpts' (lookup_enumerate _ _ _ Hi))
      as (pt' & Hpt' & Hmk).
    rewrite Hint in Hmk. simpl in Hmk. injection Hmk as <-.
    rewrite Hi' in Hpt'. by injection Hpt' as ->.
  - destruct (interpolate_state_Ret A B alpha HA HB) as (st' & Hst' & Hax').
    rewrite Hint in Hst'. injection Hst' as <-. done.
Qed.

Lemma interpolation_blend_witness :
  ∃ pts traj,
    sequence_points (coords 0.10 0.40 0.35 0.85 0.90) (coords 0.55 0.85 0.90 0.50 0.40)
      [0; 0.5; 1] = Ret pts
    ∧ mapM (interpolate_state (coords 0.10 0.40 0.35 0.85 0.90)
              (coords 0.55 0.85 0.90 0.50 0.40)) [0; 0.5; 1] = Ret traj
    ∧ length pts = 3%nat ∧ length traj = 3%nat
    ∧ ∀ i alpha, [0; 0.5; 1] !! i = Some alpha →
        ∃ pt st, pts !! i = Some pt ∧ traj !! i = Some st ∧ sp_state pt = st
          ∧ ∀ p, p ∈ DISPLAY_PARAMETER_NAMES →
              ∃ x y, coords 0.10 0.40 0.35 0.85 0.90 !! p = Some x
                     ∧ coords 0.55 0.85 0.90 0.50 0.40 !! p = Some y
                     ∧ st !! p = Some (round4 (x * (1 - alpha) + y * alpha)).
Proof.
  apply (interpolation_blend (coords 0.10 0.40 0.35 0.85 0.90)
           (coords 0.55 0.85 0.90 0.50 0.40) [0; 0.5; 1]).
  - apply coords_has_axes.
  - apply coords_has_axes.
  - repeat constructor; lra.
Defined.






End sequence_claims.

(** ** Nearest-neighbour vocabulary mapper *)

Section vocabulary.

Lemma dist_sq_euclidean (state c : gmap string R) :
  sqrt (dist_sq state c) = euclidean state c.
Proof.
  unfold dist_sq, euclidean, axis, DISPLAY_PARAMETER_NAMES. simpl. f_equal. lra.
Qed.

Lemma euclidean_nonneg (u v : gmap string R) : 0 <= euclidean u v.
Proof. unfold euclidean. apply sqrt_pos. Qed.

(** The search loop, on any registry: nothing is selected from an empty
    registry; otherwise the selected entry is the first one at the least
    distance. *)
Lemma nearest_search_spec (state : gmap string R) (types : list (string * visual_type)) :
  (types = [] ∧ nearest_search state types = (PosInf, None))
  ∨ ∃ k name vt,
      types !! k = Some (name, vt)
      ∧ nearest_search state types = (Fin (euclidean state (vt_coords vt)), Some name)
      ∧ (∀ j item, types !! j = Some item →
           euclidean state (vt_coords vt) <= euclidean state (vt_coords item.2))
      ∧ (∀ j item, (j < k)%nat → types !! j = Some item →
           euclidean state (vt_coords vt) < euclidean state (vt_coords item.2)).
Proof.
  induction types as [|x l IH] using rev_ind; [by left|]. right.
  unfold nearest_search in *. rewrite foldl_app. simpl.
  destruct IH as [[-> ->]|(k & name & vt & Hk & -> & Hmin & Hfirst)].
  - exists 0%nat, x.1, x.2. unfold nearest_step. simpl.
    rewrite dist_sq_euclidean. split_and!.
    + by destruct x.
    + done.
    + intros [|j] item; [|done]. intros [= <-]. lra.
    + intros j item Hj. lia.
  - unfold nearest_step at 1. simpl. rewrite dist_sq_euclidean.
    destruct (Rltb _ _) eqn:E.
    + apply Rltb_true in E.
      exists (length l), x.1, x.2. split_and!.
      * rewrite lookup_app_r, Nat.sub_diag by done. by destruct x.
      * done.
      * intros j item Hj. apply lookup_app_Some in Hj as [Hj|[_ Hj]].
        -- specialize (Hmin j item Hj). lra.
        -- destruct (j - length l)%nat; [|done]. injection Hj as <-. lra.
      * intros j item Hlt Hj. rewrite lookup_app_l in Hj by done.
        specialize (Hmin j item Hj). lra.
    + apply Rltb_false in E.
      exists k, name, vt. split_and!.
      * by apply lookup_app_l_Some.
      * done.
      * intros j item Hj. apply lookup_app_Some in Hj as [Hj|[_ Hj]].
        -- by apply (Hmin j).
        -- destruct (j - length l)%nat; [|done]. by injection Hj as <-.
      * intros j item Hlt Hj. apply lookup_app_Some in Hj as [Hj|[Hge _]].
        -- by apply (Hfirst j).
        -- apply lookup_lt_Some in Hk. lia.
Qed.

Lemma assoc_lookup {V} (d : list (string * V)) (k : nat) (name : string) (v : V) :
  NoDup d.*1 → d !! k = Some (name, v) → assoc d name = Some v.
Proof.
  revert k. induction d as [|[n' v'] d IH]; intros k Hnd Hk; [done|].
  simpl in *. apply NoDup_cons in Hnd as [Hn' Hnd].
  destruct k as [|k]; simpl in Hk.
  - injection Hk as -> ->. by rewrite String.eqb_refl.
  - destruct (String.eqb_spec name n') as [->|_]; [|by eapply IH].
    exfalso. apply Hn'. apply list_elem_of_fmap. exists (n', v). split; [done|].
    by eapply list_elem_of_lookup_2.
Qed.

Lemma visual_type_names :
  DISPLAY_VISUAL_TYPES.*1
  = ["luxury_restraint"; "theatrical_grandeur"; "abundance_energy"; "editorial_cool";
     "spectacle_immersion"].
Proof. reflexivity. Qed.

Lemma visual_type_names_NoDup : NoDup DISPLAY_VISUAL_TYPES.*1.
Proof. rewrite visual_type_names. by apply (bool_decide_unpack _). Qed.

(** The mapper always returns: the first archetype at the least distance,
    that distance rounded, and the slice of its keywords. *)
Lemma extract_visual_vocabulary_spec (state : gmap string R) (strength : R) :
  ∃ k name vt,
    DISPLAY_VISUAL_TYPES !! k = Some (name, vt)
    ∧ nearest_search state DISPLAY_VISUAL_TYPES
      = (Fin (euclidean state (vt_coords vt)), Some name)
    ∧ _extract_visual_vocabulary state strength
      = Ret {| vocab_nearest_type := name;
               vocab_distance := Fin (round4 (euclidean state (vt_coords vt)));
               vocab_keywords := keyword_slice strength (vt_keywords vt);
               vocab_strength := strength;
               vocab_state := state |}
    ∧ (∀ j item, DISPLAY_VISUAL_TYPES !! j = Some item →
         euclidean state (vt_coords vt) <= euclidean state (vt_coords item.2))
    ∧ (∀ j item, (j < k)%nat → DISPLAY_VISUAL_TYPES !! j = Some item →
         euclidean state (vt_coords vt) < euclidean state (vt_coords item.2)).
Proof.
  destruct (nearest_search_spec state DISPLAY_VISUAL_TYPES)
    as [[? _]|(k & name & vt & Hk & Hs & Hmin & Hfirst)]; [done|].
  exists k, name, vt. split_and!; try done.
  unfold _extract_visual_vocabulary. rewrite Hs.
  unfold getreg. rewrite (assoc_lookup _ _ _ _ visual_type_names_NoDup Hk).
  done.
Qed.

End vocabulary.

(** ** Claims on the vocabulary mapper *)

Section vocabulary_claims.




(** The exact vector of "luxury_restraint" maps to that archetype, at
    distance 0. *)
Lemma euclidean_self (u : gmap string R) : euclidean u u = 0.
Proof.
  unfold euclidean. rewrite <- sqrt_0. f_equal. lra.
Qed.

Lemma luxury_restraint_is_nearest (strength : R) :
  ∃ v, _extract_visual_vocabulary (coords 0.10 0.30 0.35 0.85 0.90) strength = Ret v
       ∧ vocab_nearest_type v = "luxury_restraint"
       ∧ vocab_distance v = Fin 0.
Proof.
  destruct (extract_visual_vocabulary_spec (coords 0.10 0.30 0.35 0.85 0.90) strength)
    as (k & name & vt & Hk & _ & Hv & Hmin & Hfirst).
  destruct k as [|k].
  - injection Hk as <- <-. eexists. split; [exact Hv|]. split; [done|]. simpl.
    by rewrite euclidean_self, round4_0.
  - exfalso.
    specialize (Hfirst 0%nat _ ltac:(lia) eq_refl). simpl in Hfirst.
    rewrite euclidean_self in Hfirst.
    pose proof (euclidean_nonneg (coords 0.10 0.30 0.35 0.85 0.90) (vt_coords vt)). lra.
Qed.








(** *** The mapper on arbitrary floats *)

Lemma float_max_moderate : 5 * (1e150 + 1) ^ 2 <= Float.float_max.
Proof. unfold Float.float_max, Float.float_max_Z. lra. Qed.

Lemma dist_sq_nonneg (state c : gmap string R) : 0 <= dist_sq state c.
Proof.
  unfold dist_sq, DISPLAY_PARAMETER_NAMES. simpl.
  repeat apply Rplus_le_le_0_compat; try lra; apply pow2_ge_0.
Qed.

Lemma visual_types_unit_box (k : nat) (name : string) (vt : visual_type) (p : string) :
  DISPLAY_VISUAL_TYPES !! k = Some (name, vt) →
  p ∈ DISPLAY_PARAMETER_NAMES →
  0 <= default 0.5 (vt_coords vt !! p) <= 1.
Proof.
  intros Hk Hp. apply elem_of_parameter_names in Hp.
  destruct k as [|[|[|[|[|k]]]]]; [..|done];
    injection Hk as <- <-; unfold coords; simpl;
    destruct Hp as [->|[->|[->|[->| ->]]]]; simplify_map_eq; simpl; lra.
Qed.

Lemma square_bound (B x d : R) :
  0 <= B → - B <= x <= B → 0 <= d <= 1 → 0 <= (x - d) ^ 2 <= (B + 1) ^ 2.
Proof.
  intros HB Hx Hd. split; [apply pow2_ge_0|].
  assert (0 <= (B + 1 - (x - d)) * (B + 1 + (x - d))) by (apply Rmult_le_pos; lra).
  lra.
Qed.

(** A moderate axis reads as a finite number, the one the finite part of
    the input has there, or 0.5. *)
Lemma moderate_default (state : gmap string Float.float) (p : string) :
  moderate state p →
  ∃ x, default (Float.Num 0.5) (state !! p) = Float.Num x
       ∧ default 0.5 (finite_part state !! p) = x
       ∧ - 1e150 <= x <= 1e150.
Proof.
  unfold finite_part. rewrite lookup_omap.
  intros [->|(x & -> & Hx)]; simpl.
  - exists 0.5. split_and!; [done|done|lra|lra].
  - exists x. split_and!; [done|done|lra|lra].
Qed.

Lemma nonfinite_not_moderate (state : gmap string Float.float) (p : string)
    (v : Float.float) :
  state !! p = Some v → nonfinite v → ¬ moderate state p.
Proof.
  intros Hv Hn [Hm|(x & Hm & _)]; rewrite Hv in Hm; [done|].
  injection Hm as ->. by destruct Hn as [?|[?|?]].
Qed.

Section float_distance.

Variables (state : gmap string Float.float) (c : gmap string R).

(** The body of the sum, one axis at a time. *)
Let fstep (acc : result Float.float) (p : string) : result Float.float :=
  total ← acc;
  term ← Float.fsquare (Float.fsub (default (Float.Num 0.5) (state !! p))
                                   (default 0.5 (c !! p)));
  mret (Float.fadd total term).

Let rstep (acc : R) (p : string) : R :=
  acc + (default 0.5 (finite_part state !! p) - default 0.5 (c !! p)) ^ 2.

Lemma float_step_moderate (a : R) (p : string) :
  moderate state p → 0 <= default 0.5 (c !! p) <= 1 →
  0 <= a → a + (1e150 + 1) ^ 2 <= Float.float_max →
  fstep (Ret (Float.Num a)) p = Ret (Float.Num (rstep a p))
  ∧ a <= rstep a p <= a + (1e150 + 1) ^ 2.
Proof.
  intros Hm Hc Ha Hmax.
  destruct (moderate_default state p Hm) as (x & Hx & Hx' & Hb).
  unfold fstep, rstep. rewrite Hx, Hx'.
  set (d := default 0.5 (c !! p)) in *.
  assert (0 <= (x - d) ^ 2 <= (1e150 + 1) ^ 2) as Hsq
    by (apply square_bound; lra).
  cbv beta iota delta [mbind result_bind bind Float.fsquare Float.fsub].
  rewrite (proj2 (Rltb_false _ _)) by lra.
  cbv beta iota delta [mret result_ret Float.fadd].
  rewrite !(proj2 (Rltb_false _ _)) by lra.
  split; [done|lra].
Qed.

Lemma float_step_nonfinite (acc : result Float.float) (p : string) (v : Float.float) :
  state !! p = Some v → nonfinite v →
  (∃ a, acc = Ret (Float.Num a)) ∨ acc = Ret Float.Inf ∨ acc = Ret Float.NaN →
  fstep acc p = Ret Float.Inf ∨ fstep acc p = Ret Float.NaN.
Proof.
  intros Hv Hn Hacc. unfold fstep. rewrite Hv. simpl.
  destruct Hn as [->|[->| ->]], Hacc as [[a ->]|[->| ->]]; simpl; tauto.
Qed.

Lemma float_step_absorbed (acc : result Float.float) (p : string) :
  moderate state p → 0 <= default 0.5 (c !! p) <= 1 →
  acc = Ret Float.Inf ∨ acc = Ret Float.NaN →
  fstep acc p = Ret Float.Inf ∨ fstep acc p = Ret Float.NaN.
Proof.
  intros Hm Hc Hacc.
  destruct (moderate_default state p Hm) as (x & Hx & _ & Hb).
  unfold fstep. rewrite Hx.
  set (d := default 0.5 (c !! p)) in *.
  assert (0 <= (x - d) ^ 2 <= (1e150 + 1) ^ 2) as Hsq
    by (apply square_bound; lra).
  pose proof float_max_moderate.
  cbv beta iota delta [mbind result_bind bind Float.fsquare Float.fsub].
  destruct Hacc as [->| ->]; rewrite (proj2 (Rltb_false _ _)) by lra;
    cbv beta iota delta [mret result_ret Float.fadd]; tauto.
Qed.

(** Over moderate axes the sum is the real sum. *)
Lemma float_fold_moderate (l : list string) (a : R) :
  (∀ p, p ∈ l → moderate state p ∧ 0 <= default 0.5 (c !! p) <= 1) →
  0 <= a → a + INR (length l) * (1e150 + 1) ^ 2 <= Float.float_max →
  foldl fstep (Ret (Float.Num a)) l = Ret (Float.Num (foldl rstep a l))
  ∧ 0 <= foldl rstep a l.
Proof.
  revert a. induction l as [|p l IH]; intros a Hl Ha Hmax; [done|].
  rewrite length_cons, S_INR in Hmax.
  pose proof (pos_INR (length l)) as Hlen.
  set (M := (1e150 + 1) ^ 2) in *.
  assert (0 <= M) as HM by apply pow2_ge_0.
  destruct (Hl p ltac:(left)) as [Hm Hc].
  destruct (float_step_moderate a p Hm Hc Ha) as [Hstep Hb]; [fold M; nra|].
  fold M in Hb.
  change (foldl fstep (fstep (Ret (Float.Num a)) p) l
          = Ret (Float.Num (foldl rstep (rstep a p) l))
          ∧ 0 <= foldl rstep (rstep a p) l).
  rewrite Hstep. apply IH.
  - intros q Hq. apply Hl. by right.
  - lra.
  - fold M. nra.
Qed.

(** Once the running total is infinite or NaN it stays so. *)
Lemma float_fold_absorbed (l : list string) (acc : result Float.float) :
  (∀ p, p ∈ l →
     0 <= default 0.5 (c !! p) <= 1
     ∧ (moderate state p ∨ ∃ v, state !! p = Some v ∧ nonfinite v)) →
  acc = Ret Float.Inf ∨ acc = Ret Float.NaN →
  foldl fstep acc l = Ret Float.Inf ∨ foldl fstep acc l = Ret Float.NaN.
Proof.
  revert acc. induction l as [|p l IH]; intros acc Hl Hacc; [done|].
  change (foldl fstep (fstep acc p) l = Ret Float.Inf
          ∨ foldl fstep (fstep acc p) l = Ret Float.NaN).
  apply IH; [intros q Hq; apply Hl; by right|].
  destruct (Hl p ltac:(left)) as [Hc [Hm|(v & Hv & Hn)]].
  - by apply float_step_absorbed.
  - apply (float_step_nonfinite acc p v Hv Hn). tauto.
Qed.

(** One infinite or NaN axis makes the sum infinite or NaN. *)
Lemma float_fold_nonfinite (l : list string) (a : R) :
  (∀ p, p ∈ l →
     0 <= default 0.5 (c !! p) <= 1
     ∧ (moderate state p ∨ ∃ v, state !! p = Some v ∧ nonfinite v)) →
  (∃ p v, p ∈ l ∧ state !! p = Some v ∧ nonfinite v) →
  0 <= a → a + INR (length l) * (1e150 + 1) ^ 2 <= Float.float_max →
  foldl fstep (Ret (Float.Num a)) l = Ret Float.Inf
  ∨ foldl fstep (Ret (Float.Num a)) l = Ret Float.NaN.
Proof.
  revert a. induction l as [|p l IH]; intros a Hl (q & v & Hq & Hv & Hn) Ha Hmax.
  { by apply elem_of_nil in Hq. }
  rewrite length_cons, S_INR in Hmax.
  pose proof (pos_INR (length l)) as Hlen.
  set (M := (1e150 + 1) ^ 2) in *.
  assert (0 <= M) as HM by apply pow2_ge_0.
  assert (∀ p0, p0 ∈ l →
            0 <= default 0.5 (c !! p0) <= 1
            ∧ (moderate state p0 ∨ ∃ v0, state !! p0 = Some v0 ∧ nonfinite v0)) as Hl'
    by (intros p0 Hp0; apply Hl; by right).
  change (foldl fstep (fstep (Ret (Float.Num a)) p) l = Ret Float.Inf
          ∨ foldl fstep (fstep (Ret (Float.Num a)) p) l = Ret Float.NaN).
  destruct (Hl p ltac:(left)) as [Hc [Hm|(w & Hw & Hnw)]].
  - destruct (float_step_moderate a p Hm Hc Ha) as [Hstep Hb]; [fold M; nra|].
    fold M in Hb. rewrite Hstep. apply IH; [done| |lra|fold M; nra].
    apply elem_of_cons in Hq as [->|Hq].
    + exfalso. by apply (nonfinite_not_moderate state p v).
    + by exists q, v.
  - apply float_fold_absorbed; [done|].
    apply (float_step_nonfinite _ p w Hw Hnw). left. by eexists.
Qed.

(** A finite axis whose square is beyond the largest float raises. *)
Lemma float_step_overflow (a : R) (p : string) (x : R) :
  state !! p = Some (Float.Num x) →
  Float.float_max < (x - default 0.5 (c !! p)) ^ 2 →
  fstep (Ret (Float.Num a)) p = Raise OverflowError.
Proof.
  intros Hx Hbig. unfold fstep. rewrite Hx.
  set (d := default 0.5 (c !! p)) in *.
  change (default (Float.Num 0.5) (Some (Float.Num x))) with (Float.Num x).
  cbv beta iota delta [mbind result_bind bind Float.fsquare Float.fsub].
  by rewrite (proj2 (Rltb_true _ _)) by done.
Qed.

End float_distance.

Lemma float_dist_sq_overflow (state : gmap string Float.float) (c : gmap string R)
    (x : R) :
  state !! "compositional_tension" = Some (Float.Num x) →
  Float.float_max < (x - default 0.5 (c !! "compositional_tension")) ^ 2 →
  Float.dist_sq state c = Raise OverflowError.
Proof.
  intros Hx Hbig. unfold Float.dist_sq, DISPLAY_PARAMETER_NAMES.
  pose proof (float_step_overflow state c 0 "compositional_tension" x Hx Hbig) as Hs.
  cbv beta zeta in Hs. cbn [foldl]. rewrite Hs. reflexivity.
Qed.

Lemma float_dist_sq_moderate (state : gmap string Float.float) (c : gmap string R) :
  (∀ p, p ∈ DISPLAY_PARAMETER_NAMES → moderate state p) →
  (∀ p, p ∈ DISPLAY_PARAMETER_NAMES → 0 <= default 0.5 (c !! p) <= 1) →
  Float.dist_sq state c = Ret (Float.Num (dist_sq (finite_part state) c)).
Proof.
  intros Hm Hc. pose proof float_max_moderate.
  apply (float_fold_moderate state c DISPLAY_PARAMETER_NAMES 0).
  - intros p Hp. split; [by apply Hm|by apply Hc].
  - lra.
  - simpl. lra.
Qed.

Lemma float_dist_sq_nonfinite (state : gmap string Float.float) (c : gmap string R) :
  (∀ p, p ∈ DISPLAY_PARAMETER_NAMES →
     moderate state p ∨ ∃ v, state !! p = Some v ∧ nonfinite v) →
  (∃ p v, p ∈ DISPLAY_PARAMETER_NAMES ∧ state !! p = Some v ∧ nonfinite v) →
  (∀ p, p ∈ DISPLAY_PARAMETER_NAMES → 0 <= default 0.5 (c !! p) <= 1) →
  Float.dist_sq state c = Ret Float.Inf ∨ Float.dist_sq state c = Ret Float.NaN.
Proof.
  intros Hm Hn Hc. pose proof float_max_moderate.
  apply (float_fold_nonfinite state c DISPLAY_PARAMETER_NAMES 0).
  - intros p Hp. split; [by apply Hc|by apply Hm].
  - done.
  - lra.
  - simpl. lra.
Qed.

(** On moderate axes the float search is the real-valued search on the
    finite part of the input. *)
Lemma float_search_moderate (state : gmap string Float.float) :
  (∀ p, p ∈ DISPLAY_PARAMETER_NAMES → moderate state p) →
  Float.nearest_search state DISPLAY_VISUAL_TYPES
  = Ret (of_xfloat (nearest_search (finite_part state) DISPLAY_VISUAL_TYPES).1,
         (nearest_search (finite_part state) DISPLAY_VISUAL_TYPES).2).
Proof.
  intros Hm. unfold Float.nearest_search, nearest_search.
  assert (∀ k item, DISPLAY_VISUAL_TYPES !! k = Some item →
            ∀ p, p ∈ DISPLAY_PARAMETER_NAMES →
              0 <= default 0.5 (vt_coords item.2 !! p) <= 1) as Hbox.
  { intros k [name vt] Hk p Hp. by apply (visual_types_unit_box k name vt p). }
  revert Hbox.
  change (Ret (Float.Inf, @None string))
    with (Ret (of_xfloat (PosInf, @None string).1, (PosInf, @None string).2)).
  generalize (PosInf, @None string).
  induction DISPLAY_VISUAL_TYPES as [|item l IH]; intros acc Hbox; [done|].
  simpl. rewrite <- IH.
  - f_equal. unfold Float.nearest_step, nearest_step. simpl.
    rewrite (float_dist_sq_moderate state (vt_coords item.2) Hm (Hbox 0%nat item eq_refl)).
    simpl. rewrite (proj2 (Rltb_false _ _)) by apply dist_sq_nonneg. simpl.
    destruct acc as [[r|] n]; simpl; [|done].
    by destruct (Rltb _ _).
  - intros k it Hk. by apply (Hbox (S k)).
Qed.

(** With an infinite or NaN axis no distance is ever below [min_dist]:
    the search ends as it began. *)
Lemma float_search_nonfinite (state : gmap string Float.float) :
  (∀ p, p ∈ DISPLAY_PARAMETER_NAMES →
     moderate state p ∨ ∃ v, state !! p = Some v ∧ nonfinite v) →
  (∃ p v, p ∈ DISPLAY_PARAMETER_NAMES ∧ state !! p = Some v ∧ nonfinite v) →
  Float.nearest_search state DISPLAY_VISUAL_TYPES = Ret (Float.Inf, None).
Proof.
  intros Hm Hn. unfold Float.nearest_search.
  assert (∀ k item, DISPLAY_VISUAL_TYPES !! k = Some item →
            ∀ p, p ∈ DISPLAY_PARAMETER_NAMES →
              0 <= default 0.5 (vt_coords item.2 !! p) <= 1) as Hbox.
  { intros k [name vt] Hk p Hp. by apply (visual_types_unit_box k name vt p). }
  revert Hbox.
  induction DISPLAY_VISUAL_TYPES as [|item l IH]; intros Hbox; [done|].
  change (foldl (Float.nearest_step state)
            (Float.nearest_step state (Ret (Float.Inf, None)) item) l
          = Ret (Float.Inf, None)).
  assert (Float.nearest_step state (Ret (Float.Inf, None)) item
          = Ret (Float.Inf, None)) as ->.
  { unfold Float.nearest_step. simpl.
    destruct (float_dist_sq_nonfinite state (vt_coords item.2) Hm Hn
                (Hbox 0%nat item eq_refl)) as [-> | ->]; done. }
  apply IH. intros k it Hk. by apply (Hbox (S k)).
Qed.

(** On moderate axes the two embeddings of the mapper agree: the float
    mapper returns what the real-valued one returns on the finite part of
    the input. *)
Lemma float_mapper_agrees (state : gmap string Float.float) (strength : R) :
  (∀ p, p ∈ DISPLAY_PARAMETER_NAMES → moderate state p) →
  ∃ v w,
    _extract_visual_vocabulary (finite_part state) strength = Ret v
    ∧ Float._extract_visual_vocabulary state (Float.Num strength) = Ret w
    ∧ Float.vocab_nearest_type w = vocab_nearest_type v
    ∧ Float.vocab_distance w = of_xfloat (vocab_distance v)
    ∧ Float.vocab_keywords w = vocab_keywords v.
Proof.
  intros Hm.
  destruct (extract_visual_vocabulary_spec (finite_part state) strength)
    as (k & name & vt & Hk & Hs & Hv & _).
  pose proof (float_search_moderate state Hm) as Hf. rewrite Hs in Hf. simpl in Hf.
  pose proof (assoc_lookup _ _ _ _ visual_type_names_NoDup Hk) as Ha.
  eexists _, _. split; [exact Hv|]. split.
  - unfold Float._extract_visual_vocabulary, getreg. rewrite Hf.
    cbv beta iota delta [mbind result_bind bind]. rewrite Ha. reflexivity.
  - done.
Qed.

(** C10: for every input dictionary whose values on the five axes, where
    it has them, are finite and of magnitude at most 1e150 (the empty
    dictionary included, and whatever it holds under other keys), and every
    strength, the search ends with an archetype selected, the lookup of its
    name in the registry succeeds, and the mapper returns a result with
    that name, a finite distance and a non-empty list of that archetype's
    leading keywords. *)
Theorem vocabulary_selects_on_moderate_axes
    (state : gmap string Float.float) (strength : Float.float) :
  (∀ p, p ∈ DISPLAY_PARAMETER_NAMES → moderate state p) →
  ∃ d name vt v,
    Float.nearest_search state DISPLAY_VISUAL_TYPES = Ret (Float.Num d, Some name)
    ∧ name ∈ DISPLAY_VISUAL_TYPES.*1
    ∧ getreg DISPLAY_VISUAL_TYPES name = Ret vt
    ∧ Float._extract_visual_vocabulary state strength = Ret v
    ∧ Float.vocab_nearest_type v = name
    ∧ Float.vocab_distance v = Float.Num (round4 d) ∧ 0 <= d
    ∧ Float.vocab_keywords v `prefix_of` vt_keywords vt
    ∧ Float.vocab_keywords v ≠ [].
Proof.
  intros Hm.
  destruct (extract_visual_vocabulary_spec (finite_part state) 1)
    as (k & name & vt & Hk & Hs & _).
  pose proof (float_search_moderate state Hm) as Hf. rewrite Hs in Hf. simpl in Hf.
  pose proof (assoc_lookup _ _ _ _ visual_type_names_NoDup Hk) as Ha.
  exists (euclidean (finite_part state) (vt_coords vt)), name, vt. eexists.
  split_and!; [exact Hf| | | |..].
  - apply list_elem_of_fmap. exists (name, vt). split; [done|].
    by eapply list_elem_of_lookup_2.
  - unfold getreg. by rewrite Ha.
  - unfold Float._extract_visual_vocabulary, getreg. rewrite Hf.
    cbv beta iota delta [mbind result_bind bind]. rewrite Ha. reflexivity.
  - done.
  - done.
  - apply euclidean_nonneg.
  - simpl. repeat destruct (Float.fltb _ _); try apply prefix_take; done.
  - simpl.
    do 5 (destruct k as [|k];
          [injection Hk as <- <-; by repeat destruct (Float.fltb _ _)|]).
    done.
Qed.

Lemma vocabulary_selects_on_moderate_axes_witness :
  ∃ d name vt v,
    Float.nearest_search {["lighting_drama" := Float.Num 0.9; "mood" := Float.NaN]}
      DISPLAY_VISUAL_TYPES = Ret (Float.Num d, Some name)
    ∧ name ∈ DISPLAY_VISUAL_TYPES.*1
    ∧ getreg DISPLAY_VISUAL_TYPES name = Ret vt
    ∧ Float._extract_visual_vocabulary
        {["lighting_drama" := Float.Num 0.9; "mood" := Float.NaN]} Float.NaN = Ret v
    ∧ Float.vocab_nearest_type v = name
    ∧ Float.vocab_distance v = Float.Num (round4 d) ∧ 0 <= d
    ∧ Float.vocab_keywords v `prefix_of` vt_keywords vt
    ∧ Float.vocab_keywords v ≠ [].
Proof.
  apply (vocabulary_selects_on_moderate_axes
           {["lighting_drama" := Float.Num 0.9; "mood" := Float.NaN]} Float.NaN).
  intros p Hp. apply elem_of_parameter_names in Hp. unfold moderate.
  destruct Hp as [->|[->|[->|[->| ->]]]]; simplify_map_eq;
    first [by left | right; eexists; split; [done|lra]].
Defined.

(** C10 fails as stated.  With NaN on one axis every distance is NaN, no
    comparison [dist < min_dist] holds, [nearest_type] is still [None] when
    the loop ends and the registry lookup raises KeyError; an infinite value
    does the same.  A finite value as large as 1e200 raises OverflowError
    when it is squared. *)
Lemma nonfinite_axis_selects_nothing :
  Float.nearest_search {["lighting_drama" := Float.NaN]} DISPLAY_VISUAL_TYPES
  = Ret (Float.Inf, None)
  ∧ Float._extract_visual_vocabulary {["lighting_drama" := Float.NaN]} (Float.Num 1.0)
    = Raise KeyError
  ∧ Float._extract_visual_vocabulary {["lighting_drama" := Float.Inf]} (Float.Num 1.0)
    = Raise KeyError
  ∧ Float._extract_visual_vocabulary {["compositional_tension" := Float.Num 1e200]}
      (Float.Num 1.0)
    = Raise OverflowError.
Proof.
  assert (∀ v, nonfinite v →
            Float.nearest_search {["lighting_drama" := v]} DISPLAY_VISUAL_TYPES
            = Ret (Float.Inf, None)) as Hnone.
  { intros v Hv. apply float_search_nonfinite.
    - intros p Hp. apply elem_of_parameter_names in Hp. unfold moderate.
      destruct Hp as [->|[->|[->|[->| ->]]]]; simplify_map_eq;
        first [by (left; left) | right; by eexists].
    - exists "lighting_drama", v. split_and!; [|done..].
      apply elem_of_parameter_names. tauto. }
  split_and!.
  - apply Hnone. unfold nonfinite. tauto.
  - unfold Float._extract_visual_vocabulary. rewrite Hnone; [done|].
    unfold nonfinite. tauto.
  - unfold Float._extract_visual_vocabulary. rewrite Hnone; [done|].
    unfold nonfinite. tauto.
  - assert (Float.dist_sq {["compositional_tension" := Float.Num 1e200]}
              (coords 0.10 0.30 0.35 0.85 0.90) = Raise OverflowError) as Hd.
    { apply (float_dist_sq_overflow _ _ 1e200); [done|].
      replace (default 0.5 (coords 0.10 0.30 0.35 0.85 0.90 !! "compositional_tension"))
        with 0.10 by (unfold coords; by simplify_map_eq).
      unfold Float.float_max, Float.float_max_Z. lra. }
    unfold Float._extract_visual_vocabulary, Float.nearest_search,
      DISPLAY_VISUAL_TYPES.
    cbn [foldl]. unfold Float.nearest_step at 5.
    cbn [mbind result_bind bind snd vt_coords]. rewrite Hd. reflexivity.
Qed.

End vocabulary_claims.

(** ** Non-finite input to the mapper *)

Section vocabulary_nonfinite.

(** X23: when the input has an infinite or NaN value on at least one of
    the five axes, and each of its other axes is absent, infinite, NaN, or
    finite and of magnitude at most 1e150, the search selects nothing
    ([min_dist] is still [inf] and [nearest_type] still [None] after the
    loop) and the mapper raises KeyError, whatever the strength and
    whatever the dictionary holds under other keys. *)
Theorem nonfinite_axis_raises_KeyError
    (state : gmap string Float.float) (strength : Float.float) :
  (∀ p, p ∈ DISPLAY_PARAMETER_NAMES →
     moderate state p ∨ ∃ v, state !! p = Some v ∧ nonfinite v) →
  (∃ p v, p ∈ DISPLAY_PARAMETER_NAMES ∧ state !! p = Some v ∧ nonfinite v) →
  Float.nearest_search state DISPLAY_VISUAL_TYPES = Ret (Float.Inf, None)
  ∧ Float._extract_visual_vocabulary state strength = Raise KeyError.
Proof.
  intros Hm Hn.
  pose proof (float_search_nonfinite state Hm Hn) as Hs.
  split; [exact Hs|].
  unfold Float._extract_visual_vocabulary. rewrite Hs. reflexivity.
Qed.

Lemma nonfinite_axis_raises_KeyError_witness :
  Float.nearest_search
    {["viewing_intimacy" := Float.NegInf; "depth_complexity" := Float.Num 0.4]}
    DISPLAY_VISUAL_TYPES = Ret (Float.Inf, None)
  ∧ Float._extract_visual_vocabulary
      {["viewing_intimacy" := Float.NegInf; "depth_complexity" := Float.Num 0.4]}
      (Float.Num 0.3)
    = Raise KeyError.
Proof.
  apply (nonfinite_axis_raises_KeyError
           {["viewing_intimacy" := Float.NegInf; "depth_complexity" := Float.Num 0.4]}
           (Float.Num 0.3)).
  - intros p Hp. apply elem_of_parameter_names in Hp. unfold moderate, nonfinite.
    destruct Hp as [->|[->|[->|[->| ->]]]]; simplify_map_eq;
      first [ by (left; left)
            | left; right; eexists; split; [done|lra]
            | right; eexists; split; [done|tauto] ].
  - exists "viewing_intimacy", Float.NegInf. unfold nonfinite.
    split_and!; [apply elem_of_parameter_names; tauto|done|tauto].
Defined.

End vocabulary_nonfinite.

(** ** Keyframe sampler *)

Section keyframes.

Lemma index_Ret {A} (l : list A) (i : Z) :
  (0 <= i < Z.of_nat (length l))%Z →
  ∃ x, index l i = Ret x ∧ l !! Z.to_nat i = Some x.
Proof.
  intros Hi. unfold index.
  destruct (Z.ltb_spec i 0); [lia|]. destruct (Z.ltb_spec i 0); [lia|].
  destruct (lookup_lt_is_Some_2 l (Z.to_nat i)) as [x Hx]; [lia|].
  exists x. by rewrite Hx.
Qed.

Lemma keyframe_at_Ret (trajectory : list (gmap string R)) (style_modifier : string)
    (idx : Z) :
  (0 <= idx < Z.of_nat (length trajectory))%Z →
  ∃ kf, keyframe_at trajectory style_modifier idx = Ret kf
        ∧ kf_step kf = idx
        ∧ trajectory !! Z.to_nat idx = Some (kf_state kf)
        ∧ _extract_visual_vocabulary (kf_state kf) 1.0 = Ret (kf_vocabulary kf)
        ∧ kf_prompt kf = prompt_of style_modifier (kf_vocabulary kf).
Proof.
  intros Hi. destruct (index_Ret trajectory idx Hi) as (st & Hst & Hl).
  destruct (extract_visual_vocabulary_spec st 1.0) as (k & name & vt & _ & _ & Hv & _).
  unfold keyframe_at. rewrite Hst. simpl. rewrite Hv. simpl.
  eexists. split; [done|]. by simpl.
Qed.

Lemma keyframe_index_range (L keyframe_count i : Z) :
  (1 <= L)%Z → (0 <= i)%Z →
  (0 <= Z.min (i * Z.max 1 (L / keyframe_count)) (L - 1) < L)%Z.
Proof. intros HL Hi. nia. Qed.

Lemma elem_of_range (n i : Z) : i ∈ range n → (0 <= i < n)%Z.
Proof.
  unfold range. intros (j & -> & Hj)%list_elem_of_fmap.
  apply elem_of_seq in Hj. lia.
Qed.

(** The sampler returns one keyframe per selected index. *)
Lemma sequence_keyframes_Ret (trajectory : list (gmap string R))
    (style_modifier : string) (keyframe_count : Z) :
  (1 ≤ length trajectory)%nat → (0 < keyframe_count)%Z →
  let L := Z.of_nat (length trajectory) in
  let step_size := Z.max 1 (L / keyframe_count) in
  ∃ kfs,
    sequence_keyframes trajectory style_modifier keyframe_count = Ret kfs
    ∧ Forall2 (λ idx kf, keyframe_at trajectory style_modifier idx = Ret kf)
        ((λ i : Z, Z.min (i * step_size) (L - 1)) <$> range keyframe_count) kfs.
Proof.
  intros HL Hk L step_size.
  unfold sequence_keyframes, keyframe_indices, floordiv.
  destruct (Z.eqb_spec keyframe_count 0); [lia|]. simpl.
  destruct (mapM_total (keyframe_at trajectory style_modifier)
              ((λ i : Z, Z.min (i * step_size) (L - 1)) <$> range keyframe_count))
    as [kfs Hkfs].
  { intros idx (i & -> & Hi%elem_of_range)%list_elem_of_fmap.
    destruct (keyframe_at_Ret trajectory style_modifier
                (Z.min (i * step_size) (L - 1))) as (kf & Hkf & _).
    - apply keyframe_index_range; lia.
    - by exists kf. }
  exists kfs. split; [exact Hkfs | by apply mapM_Ret].
Qed.

(** C5: for a trajectory of length L >= 1 and a positive
    [keyframe_count], the sampler returns [keyframe_count] keyframes; the
    i-th one has index min(i * step_size, L - 1) with
    step_size = max(1, floor(L / keyframe_count)) and carries the
    trajectory point at that index, in order.  When [keyframe_count]
    exceeds L the indices from position L - 1 on all equal L - 1, and
    nothing fails.  A 24-point trajectory sampled for 4 keyframes yields
    the indices 0, 6, 12, 18. *)
Theorem keyframe_sampling (trajectory : list (gmap string R))
    (style_modifier : string) (keyframe_count : Z) :
  (1 ≤ length trajectory)%nat → (0 < keyframe_count)%Z →
  let L := Z.of_nat (length trajectory) in
  let step_size := Z.max 1 (L / keyframe_count) in
  ∃ kfs,
    sequence_keyframes trajectory style_modifier keyframe_count = Ret kfs
    ∧ keyframe_indices L keyframe_count
      = Ret ((λ i : Z, Z.min (i * step_size) (L - 1)) <$> range keyframe_count)
    ∧ kf_step <$> kfs = (λ i : Z, Z.min (i * step_size) (L - 1)) <$> range keyframe_count
    ∧ length kfs = Z.to_nat keyframe_count
    ∧ (∀ i kf, kfs !! i = Some kf →
         kf_step kf = Z.min (Z.of_nat i * step_size) (L - 1)
         ∧ trajectory !! Z.to_nat (kf_step kf) = Some (kf_state kf))
    ∧ ((L < keyframe_count)%Z → ∀ i kf, kfs !! i = Some kf →
         (L - 1 <= Z.of_nat i)%Z → kf_step kf = (L - 1)%Z)
    ∧ (L = 24%Z → keyframe_count = 4%Z → kf_step <$> kfs = [0; 6; 12; 18]%Z).
Proof.
  intros HL Hk L step_size.
  destruct (sequence_keyframes_Ret trajectory style_modifier keyframe_count HL Hk)
    as (kfs & Hkfs & Hall). fold L step_size in Hall.
  assert (∀ i kf, kfs !! i = Some kf →
            kf_step kf = Z.min (Z.of_nat i * step_size) (L - 1)
            ∧ trajectory !! Z.to_nat (kf_step kf) = Some (kf_state kf)) as Hpt.
  { intros i kf Hi.
    destruct (Forall2_lookup_r _ _ _ _ _ Hall Hi) as (idx & Hidx & Hkf).
    rewrite list_lookup_fmap in Hidx.
    destruct (range keyframe_count !! i) as [j|] eqn:Hj; [|done].
    injection Hidx as <-.
    assert (j = Z.of_nat i) as ->.
    { pose proof (lookup_lt_Some _ _ _ Hj) as Hlt. rewrite length_range in Hlt.
      rewrite lookup_range in Hj by done. congruence. }
    destruct (keyframe_at_Ret trajectory style_modifier
                (Z.min (Z.of_nat i * step_size) (L - 1))) as (kf' & Hkf' & Hs & Ht & _).
    { apply keyframe_index_range; lia. }
    rewrite Hkf in Hkf'. injection Hkf' as <-. by rewrite Hs. }
  assert (kf_step <$> kfs
          = (λ i : Z, Z.min (i * step_size) (L - 1)) <$> range keyframe_count) as Hsteps.
  { apply list_eq. intros i. rewrite !list_lookup_fmap.
    destruct (kfs !! i) as [kf|] eqn:Hi; simpl.
    - destruct (Hpt i kf Hi) as [-> _].
      pose proof (lookup_lt_Some _ _ _ Hi) as Hlt.
      rewrite <- (Forall2_length _ _ _ Hall), length_fmap, length_range in Hlt.
      by rewrite lookup_range.
    - apply lookup_ge_None in Hi.
      rewrite <- (Forall2_length _ _ _ Hall), length_fmap in Hi.
      by rewrite (proj2 (lookup_ge_None _ _) Hi). }
  exists kfs. split_and!; try done.
  - unfold keyframe_indices, floordiv. by destruct (Z.eqb_spec keyframe_count 0); [lia|].
  - by rewrite <- (Forall2_length _ _ _ Hall), length_fmap, length_range.
  - intros Hgt i kf Hi Hge. destruct (Hpt i kf Hi) as [-> _].
    subst step_size. rewrite Z.div_small by lia. lia.
  - intros HL24 ->. rewrite Hsteps. subst step_size. rewrite HL24. reflexivity.
Qed.

Lemma keyframe_sampling_witness :
  let trajectory := replicate 24 (coords 0.10 0.40 0.35 0.85 0.90) in
  let L := Z.of_nat (length trajectory) in
  let step_size := Z.max 1 (L / 4) in
  ∃ kfs,
    sequence_keyframes trajectory "" 4 = Ret kfs
    ∧ keyframe_indices L 4
      = Ret ((λ i : Z, Z.min (i * step_size) (L - 1)) <$> range 4)
    ∧ kf_step <$> kfs = (λ i : Z, Z.min (i * step_size) (L - 1)) <$> range 4
    ∧ length kfs = Z.to_nat 4
    ∧ (∀ i kf, kfs !! i = Some kf →
         kf_step kf = Z.min (Z.of_nat i * step_size) (L - 1)
         ∧ trajectory !! Z.to_nat (kf_step kf) = Some (kf_state kf))
    ∧ ((L < 4)%Z → ∀ i kf, kfs !! i = Some kf →
         (L - 1 <= Z.of_nat i)%Z → kf_step kf = (L - 1)%Z)
    ∧ (L = 24%Z → 4%Z = 4%Z → kf_step <$> kfs = [0; 6; 12; 18]%Z).
Proof.
  apply (keyframe_sampling (replicate 24 (coords 0.10 0.40 0.35 0.85 0.90)) "" 4).
  - simpl. lia.
  - lia.
Defined.

End keyframes.

(** ** Distance calculator *)

Section distance.

Lemma euclidean_sym (u v : gmap string R) : euclidean u v = euclidean v u.
Proof. unfold euclidean. f_equal. ring. Qed.

(** The accumulation loop over two complete vectors returns the rounded
    signed differences, second minus first, and the sum of their squares. *)
Lemma distance_loop_Ret (a b : gmap string R) :
  has_axes a → has_axes b →
  ∃ components total_sq,
    distance_loop a b = Ret (components, total_sq)
    ∧ sqrt total_sq = euclidean a b
    ∧ ∀ p, p ∈ DISPLAY_PARAMETER_NAMES →
        ∃ x y, a !! p = Some x ∧ b !! p = Some y
               ∧ components !! p = Some (round4 (y - x)).
Proof.
  intros (a1 & a2 & a3 & a4 & a5 & Ha1 & Ha2 & Ha3 & Ha4 & Ha5)%has_axes_values
         (b1 & b2 & b3 & b4 & b5 & Hb1 & Hb2 & Hb3 & Hb4 & Hb5)%has_axes_values.
  unfold distance_loop, DISPLAY_PARAMETER_NAMES. simpl.
  unfold getitem. rewrite Ha1, Ha2, Ha3, Ha4, Ha5, Hb1, Hb2, Hb3, Hb4, Hb5. simpl.
  eexists _, _. split; [reflexivity|]. split.
  - unfold euclidean, axis. rewrite Ha1, Ha2, Ha3, Ha4, Ha5, Hb1, Hb2, Hb3, Hb4, Hb5.
    simpl. f_equal. assert (0.0 = 0) as -> by lra. ring.
  - intros p Hp. apply elem_of_parameter_names in Hp.
    destruct Hp as [->|[->|[->|[->| ->]]]]; eexists _, _; split_and!; try done;
      by simplify_map_eq.
Qed.

(** With both identifiers registered the tool returns a payload. *)
Lemma state_distance_Payload (state_a_id state_b_id : string) :
  registered state_a_id → registered state_b_id →
  ∃ a b p,
    assoc DISPLAY_STATE_COORDINATES state_a_id = Some a
    ∧ assoc DISPLAY_STATE_COORDINATES state_b_id = Some b
    ∧ compute_display_state_distance state_a_id state_b_id = Ret (Payload p)
    ∧ dist_state_a p = state_a_id ∧ dist_state_b p = state_b_id
    ∧ euclidean_distance p = round4 (euclidean a b)
    ∧ ∀ q, q ∈ DISPLAY_PARAMETER_NAMES →
        ∃ x y, a !! q = Some x ∧ b !! q = Some y
               ∧ parameter_differences p !! q = Some (round4 (y - x)).
Proof.
  intros Ha Hb. pose proof Ha as [a Hsa]. pose proof Hb as [b Hsb].
  apply contains_registered in Ha. apply contains_registered in Hb.
  destruct (distance_loop_Ret a b) as (components & total_sq & Hloop & Hsq & Hc);
    [by eapply registered_has_axes..|].
  exists a, b. eexists. split_and!; [done|done| |..].
  - unfold compute_display_state_distance. rewrite Ha, Hb. simpl.
    unfold getreg. rewrite Hsa, Hsb. simpl. rewrite Hloop. simpl. reflexivity.
  - done.
  - done.
  - simpl. by rewrite Hsq.
  - done.
Qed.

(** C7: for registered states A and B the distance tool returns the same
    distance for (A, B) and for (B, A), and the distance 0 for (A, A); the
    per-axis differences it reports are second minus first, rounded. *)
Theorem state_distance_symmetric (state_a_id state_b_id : string) :
  registered state_a_id → registered state_b_id →
  ∃ a b pab pba paa,
    assoc DISPLAY_STATE_COORDINATES state_a_id = Some a
    ∧ assoc DISPLAY_STATE_COORDINATES state_b_id = Some b
    ∧ compute_display_state_distance state_a_id state_b_id = Ret (Payload pab)
    ∧ compute_display_state_distance state_b_id state_a_id = Ret (Payload pba)
    ∧ compute_display_state_distance state_a_id state_a_id = Ret (Payload paa)
    ∧ euclidean_distance pab = euclidean_distance pba
    ∧ euclidean_distance paa = 0
    ∧ ∀ q, q ∈ DISPLAY_PARAMETER_NAMES →
        ∃ x y, a !! q = Some x ∧ b !! q = Some y
               ∧ parameter_differences pab !! q = Some (round4 (y - x))
               ∧ parameter_differences pba !! q = Some (round4 (x - y))
               ∧ parameter_differences paa !! q = Some (round4 (x - x)).
Proof.
  intros Ha Hb.
  destruct (state_distance_Payload state_a_id state_b_id Ha Hb)
    as (a & b & pab & Hsa & Hsb & Hab & _ & _ & Hdab & Hcab).
  destruct (state_distance_Payload state_b_id state_a_id Hb Ha)
    as (b' & a' & pba & Hsb' & Hsa' & Hba & _ & _ & Hdba & Hcba).
  destruct (state_distance_Payload state_a_id state_a_id Ha Ha)
    as (a1 & a2 & paa & Hsa1 & Hsa2 & Haa & _ & _ & Hdaa & Hcaa).
  assert (a' = a) as -> by congruence. assert (b' = b) as -> by congruence.
  assert (a1 = a) as -> by congruence. assert (a2 = a) as -> by congruence.
  exists a, b, pab, pba, paa. split_and!; try done.
  - by rewrite Hdab, Hdba, euclidean_sym.
  - by rewrite Hdaa, euclidean_self, round4_0.
  - intros q Hq.
    destruct (Hcab q Hq) as (x & y & Hx & Hy & Hxy).
    destruct (Hcba q Hq) as (y' & x' & Hy' & Hx' & Hyx).
    destruct (Hcaa q Hq) as (x1 & x2 & Hx1 & Hx2 & Hxx).
    assert (x' = x) as -> by congruence. assert (y' = y) as -> by congruence.
    assert (x1 = x) as -> by congruence. assert (x2 = x) as -> by congruence.
    by exists x, y.
Qed.

Lemma state_distance_symmetric_witness :
  ∃ a b pab pba paa,
    assoc DISPLAY_STATE_COORDINATES "luxury_isolation" = Some a
    ∧ assoc DISPLAY_STATE_COORDINATES "theatrical_drama" = Some b
    ∧ compute_display_state_distance "luxury_isolation" "theatrical_drama"
      = Ret (Payload pab)
    ∧ compute_display_state_distance "theatrical_drama" "luxury_isolation"
      = Ret (Payload pba)
    ∧ compute_display_state_distance "luxury_isolation" "luxury_isolation"
      = Ret (Payload paa)
    ∧ euclidean_distance pab = euclidean_distance pba
    ∧ euclidean_distance paa = 0
    ∧ ∀ q, q ∈ DISPLAY_PARAMETER_NAMES →
        ∃ x y, a !! q = Some x ∧ b !! q = Some y
               ∧ parameter_differences pab !! q = Some (round4 (y - x))
               ∧ parameter_differences pba !! q = Some (round4 (x - y))
               ∧ parameter_differences paa !! q = Some (round4 (x - x)).
Proof.
  exact (state_distance_symmetric "luxury_isolation" "theatrical_drama"
           luxury_isolation_registered theatrical_drama_registered).
Defined.

End distance.

(** ** The prompt tool on the registered presets, and worked values *)

Section examples.

Lemma preset_configured (preset_name : string) (config : preset) :
  assoc DISPLAY_RHYTHMIC_PRESETS preset_name = Some config →
  registered (preset_state_a config) ∧ registered (preset_state_b config)
  ∧ (1 <= preset_num_cycles config * preset_steps_per_cycle config)%Z.
Proof.
  unfold DISPLAY_RHYTHMIC_PRESETS. simpl.
  repeat (destruct (String.eqb preset_name _);
          [intros [= <-]; simpl; split_and!; [by eexists..|lia]|]).
  done.
Qed.

Lemma preset_trajectory_Ret (preset_name : string) (config : preset) :
  assoc DISPLAY_RHYTHMIC_PRESETS preset_name = Some config →
  ∃ trajectory,
    _generate_preset_trajectory preset_name = Ret trajectory
    ∧ length trajectory
      = Z.to_nat (preset_num_cycles config * preset_steps_per_cycle config).
Proof.
  intros Hc. destruct (preset_configured _ _ Hc) as ([a Ha] & [b Hb] & _).
  unfold _generate_preset_trajectory, getreg. rewrite Hc.
  cbv beta iota delta [mbind result_bind bind]. rewrite Ha, Hb.
  cbv beta iota zeta.
  destruct (mapM_total (interpolate_state a b)
              (_generate_oscillation
                 (preset_num_cycles config * preset_steps_per_cycle config)
                 (IZR (preset_num_cycles config)) (preset_pattern config)))
    as [trajectory Ht].
  { intros alpha _.
    destruct (interpolate_state_Ret a b alpha) as (st & -> & _);
      [by eapply registered_has_axes..|]. by eexists. }
  exists trajectory. split; [done|].
  apply mapM_Ret, Forall2_length in Ht. by rewrite <- Ht, generate_oscillation_length.
Qed.

(** In sequence mode, on a registered preset and a positive
    [keyframe_count], the prompt tool returns the sampled keyframes. *)
Lemma attractor_sequence_Payload (preset_name : string)
    (custom_state : option (gmap string R)) (style_modifier : string)
    (keyframe_count : Z) (config : preset) :
  assoc DISPLAY_RHYTHMIC_PRESETS preset_name = Some config →
  (0 < keyframe_count)%Z →
  ∃ trajectory kfs,
    _generate_preset_trajectory preset_name = Ret trajectory
    ∧ sequence_keyframes trajectory style_modifier keyframe_count = Ret kfs
    ∧ generate_display_attractor_prompt preset_name custom_state "sequence"
        style_modifier keyframe_count
      = Ret (Payload (SequencePrompts preset_name (preset_description config)
                        (preset_steps_per_cycle config) (Z.of_nat (length kfs)) kfs)).
Proof.
  intros Hc Hk.
  destruct (preset_trajectory_Ret _ _ Hc) as (trajectory & Ht & Hlen).
  destruct (preset_configured _ _ Hc) as (_ & _ & Hpos).
  destruct (sequence_keyframes_Ret trajectory style_modifier keyframe_count)
    as (kfs & Hkfs & _); [lia | done |].
  exists trajectory, kfs. split_and!; [done..|].
  unfold generate_display_attractor_prompt. simpl.
  assert (String.eqb preset_name "" = false) as ->.
  { apply String.eqb_neq. intros ->. discriminate Hc. }
  unfold contains, getreg. rewrite Hc. simpl. rewrite Ht. simpl. by rewrite Hkfs.
Qed.

Example keyframe_indices_24_4 : keyframe_indices 24 4 = Ret [0; 6; 12; 18]%Z.
Proof. reflexivity. Qed.

(** More keyframes than points: the last index repeats. *)
Example keyframe_indices_3_5 : keyframe_indices 3 5 = Ret [0; 1; 2; 2; 2]%Z.
Proof. reflexivity. Qed.

Example keyframe_indices_72_4 : keyframe_indices 72 4 = Ret [0; 18; 36; 54]%Z.
Proof. reflexivity. Qed.

(** [keyframe_count = 0] divides by zero. *)
Example keyframe_indices_24_0 : keyframe_indices 24 0 = Raise ZeroDivisionError.
Proof. reflexivity. Qed.

(** The sinusoidal waveform starts at 0.5. *)
Example sinusoidal_step_0 :
  _generate_oscillation 24 3 "sinusoidal" !! 0%nat = Some 0.5.
Proof.
  unfold _generate_oscillation. rewrite list_lookup_fmap, lookup_range by (simpl; lia).
  simpl. f_equal.
  change (Z.of_nat 0) with 0%Z.
  replace (2 * PI * 3 * 0 / 24) with 0 by (unfold Rdiv; ring).
  rewrite sin_0. lra.
Qed.

Lemma mod1_small (x : R) : 0 <= x < 1 → mod1 x = x.
Proof.
  intros H. unfold mod1, frac_part.
  rewrite <- (Int_part_spec x 0); [simpl; lra | simpl; lra].
Qed.

(** One square cycle over four steps. *)
Example square_one_cycle : _generate_oscillation 4 1 "square" = [0; 0; 1; 1].
Proof.
  assert (∀ i, 2 * PI * 1 * i / 4 / (2 * PI) = i / 4) as E
    by (intros; field; apply PI_neq0).
  unfold _generate_oscillation. change (range 4) with [0; 1; 2; 3]%Z.
  simpl. rewrite !E.
  rewrite !mod1_small by lra.
  rewrite !(proj2 (Rltb_true _ _)) by lra.
  rewrite !(proj2 (Rltb_false _ _)) by lra.
  repeat f_equal; lra.
Qed.

(** Half a cycle of four steps rotates the waveform by two places. *)
Example phase_offset_half (a b c d : R) :
  apply_phase_offset 0.5 4 [a; b; c; d] = [c; d; a; b].
Proof.
  rewrite apply_phase_offset_unit by (simpl; first [lra | lia]).
  replace (0.5 * IZR 4) with (IZR 2) by lra. by rewrite Int_part_IZR.
Qed.

(** The midpoint between "luxury_isolation" and "theatrical_drama". *)
Example interpolate_midpoint :
  ∃ st, interpolate_state (coords 0.10 0.40 0.35 0.85 0.90)
          (coords 0.55 0.85 0.90 0.50 0.40) 0.5 = Ret st
        ∧ st !! "compositional_tension" = Some 0.325
        ∧ st !! "viewing_intimacy" = Some 0.675.
Proof.
  eexists. split; [reflexivity|]. split.
  - rewrite lookup_insert_ne, lookup_insert_ne, lookup_insert_ne, lookup_insert_ne,
      lookup_insert_eq by done.
    f_equal. replace (0.10 * (1 - 0.5) + 0.55 * 0.5) with 0.325 by lra.
    apply (round4_decimal 3250). lra.
  - rewrite lookup_insert_ne, lookup_insert_eq by done.
    f_equal. replace (0.85 * (1 - 0.5) + 0.50 * 0.5) with 0.675 by lra.
    apply (round4_decimal 6750). lra.
Qed.

End examples.

(** * Further properties of the code *)

(** ** Rounding *)

Section rounding.

(** Rounding to the nearest integer is monotone. *)
Lemma round_half_even_mono (x y : R) :
  x <= y → (round_half_even x <= round_half_even y)%Z.
Proof.
  intros Hxy.
  pose proof (round_half_even_near x) as Hx.
  pose proof (round_half_even_near y) as Hy.
  assert (round_half_even x < round_half_even y + 2)%Z as Hlt.
  { apply lt_IZR. rewrite plus_IZR. lra. }
  destruct (decide (round_half_even x = round_half_even y + 1)%Z) as [E|E]; [|lia].
  exfalso. assert (x = y) as ->.
  { apply (f_equal IZR) in E. rewrite plus_IZR in E. lra. }
  lia.
Qed.

Lemma round4_mono (x y : R) : x <= y → round4 x <= round4 y.
Proof.
  intros Hxy. unfold round4.
  assert (IZR (round_half_even (x * 10000)) <= IZR (round_half_even (y * 10000)))
    by (apply IZR_le, round_half_even_mono; lra).
  lra.
Qed.

(** Rounding does not cross a value that has four decimals. *)
Lemma round4_between (lo hi x : R) (n m : Z) :
  lo * 10000 = IZR n → hi * 10000 = IZR m → lo <= x <= hi →
  lo <= round4 x <= hi.
Proof.
  intros Hlo Hhi [H1 H2].
  pose proof (round4_mono lo x H1) as A. rewrite (round4_decimal n lo Hlo) in A.
  pose proof (round4_mono x hi H2) as B. rewrite (round4_decimal m hi Hhi) in B.
  done.
Qed.

End rounding.

(** ** Unknown identifiers *)

Section unknown_state.

(** X1: when a state identifier of the sequence tool is not registered,
    the answer is the error object naming the first offending identifier
    ([state_a_id] is checked before [state_b_id]) and listing the
    registered ones; nothing is computed. *)
Theorem rhythmic_sequence_unknown_state (state_a_id state_b_id pattern : string)
    (num_cycles steps_per_cycle : Z) (phase_offset : R) :
  ¬ (registered state_a_id ∧ registered state_b_id) →
  ∃ bad,
    generate_display_rhythmic_sequence state_a_id state_b_id pattern
      num_cycles steps_per_cycle phase_offset
    = Ret (ErrorObj ("Unknown state: " +:+ bad +:+ ". Available: "
                       +:+ "['luxury_isolation', 'theatrical_drama', 'abundance_wall', "
                       +:+ "'editorial_minimal', 'immersive_spectacle', "
                       +:+ "'curated_collection', 'narrative_journey']"))
    ∧ ¬ registered bad
    ∧ (¬ registered state_a_id → bad = state_a_id)
    ∧ (registered state_a_id → bad = state_b_id).
Proof.
  intros Hn. unfold generate_display_rhythmic_sequence.
  destruct (contains DISPLAY_STATE_COORDINATES state_a_id) eqn:Ea.
  - destruct (contains DISPLAY_STATE_COORDINATES state_b_id) eqn:Eb.
    + exfalso. apply Hn. split; by apply contains_registered.
    + exists state_b_id. simpl. split_and!; try done.
      * intros Hb%contains_registered. congruence.
      * intros Ha. by apply contains_registered in Ea.
  - exists state_a_id. simpl. split_and!; try done.
    + intros Ha%contains_registered. congruence.
    + intros Ha%contains_registered. congruence.
Qed.

Lemma atlantis_unregistered : ¬ registered "atlantis".
Proof. by intros [? ?]. Qed.

Lemma rhythmic_sequence_unknown_state_witness :
  ∃ bad,
    generate_display_rhythmic_sequence "atlantis" "theatrical_drama" "sinusoidal" 3 20 0
    = Ret (ErrorObj ("Unknown state: " +:+ bad +:+ ". Available: "
                       +:+ "['luxury_isolation', 'theatrical_drama', 'abundance_wall', "
                       +:+ "'editorial_minimal', 'immersive_spectacle', "
                       +:+ "'curated_collection', 'narrative_journey']"))
    ∧ ¬ registered bad
    ∧ (¬ registered "atlantis" → bad = "atlantis")
    ∧ (registered "atlantis" → bad = "theatrical_drama").
Proof.
  apply (rhythmic_sequence_unknown_state "atlantis" "theatrical_drama" "sinusoidal" 3 20 0).
  intros [H _]. exact (atlantis_unregistered H).
Defined.

(** X2: the distance tool treats unknown identifiers the same way: the
    error object names the first identifier that is not registered, and
    no distance is returned. *)
Theorem state_distance_unknown_state (state_a_id state_b_id : string) :
  ¬ (registered state_a_id ∧ registered state_b_id) →
  ∃ bad,
    compute_display_state_distance state_a_id state_b_id
    = Ret (ErrorObj ("Unknown state: " +:+ bad +:+ ". Available: "
                       +:+ "['luxury_isolation', 'theatrical_drama', 'abundance_wall', "
                       +:+ "'editorial_minimal', 'immersive_spectacle', "
                       +:+ "'curated_collection', 'narrative_journey']"))
    ∧ ¬ registered bad
    ∧ (¬ registered state_a_id → bad = state_a_id)
    ∧ (registered state_a_id → bad = state_b_id).
Proof.
  intros Hn. unfold compute_display_state_distance.
  destruct (contains DISPLAY_STATE_COORDINATES state_a_id) eqn:Ea.
  - destruct (contains DISPLAY_STATE_COORDINATES state_b_id) eqn:Eb.
    + exfalso. apply Hn. split; by apply contains_registered.
    + exists state_b_id. simpl. split_and!; try done.
      * intros Hb%contains_registered. congruence.
      * intros Ha. by apply contains_registered in Ea.
  - exists state_a_id. simpl. split_and!; try done.
    + intros Ha%contains_registered. congruence.
    + intros Ha%contains_registered. congruence.
Qed.

Lemma state_distance_unknown_state_witness :
  ∃ bad,
    compute_display_state_distance "luxury_isolation" "atlantis"
    = Ret (ErrorObj ("Unknown state: " +:+ bad +:+ ". Available: "
                       +:+ "['luxury_isolation', 'theatrical_drama', 'abundance_wall', "
                       +:+ "'editorial_minimal', 'immersive_spectacle', "
                       +:+ "'curated_collection', 'narrative_journey']"))
    ∧ ¬ registered bad
    ∧ (¬ registered "luxury_isolation" → bad = "luxury_isolation")
    ∧ (registered "luxury_isolation" → bad = "atlantis").
Proof.
  apply (state_distance_unknown_state "luxury_isolation" "atlantis").
  intros [_ H]. exact (atlantis_unregistered H).
Defined.

End unknown_state.

(** ** Registered coordinates *)

Section registered_coordinates.

Lemma coords_lookup_Some (ct dc ld vi ns : R) (p : string) (v : R) :
  coords ct dc ld vi ns !! p = Some v →
  (p = "compositional_tension" ∧ v = ct) ∨ (p = "depth_complexity" ∧ v = dc)
  ∨ (p = "lighting_drama" ∧ v = ld) ∨ (p = "viewing_intimacy" ∧ v = vi)
  ∨ (p = "negative_space_ratio" ∧ v = ns).
Proof.
  unfold coords. rewrite !lookup_insert_Some, lookup_empty.
  intros H. repeat (destruct H as [[<- <-]|[_ H]]; [tauto|]). done.
Qed.

Lemma coords_dom (ct dc ld vi ns : R) : dom (coords ct dc ld vi ns) = axes.
Proof.
  unfold coords, axes, DISPLAY_PARAMETER_NAMES. rewrite !dom_insert_L, dom_empty_L.
  simpl. set_solver.
Qed.

Ltac centesimal_literal :=
  first [ exists 10%Z; lra | exists 15%Z; lra | exists 20%Z; lra | exists 25%Z; lra
        | exists 30%Z; lra | exists 35%Z; lra | exists 40%Z; lra | exists 45%Z; lra
        | exists 50%Z; lra | exists 55%Z; lra | exists 60%Z; lra | exists 65%Z; lra
        | exists 70%Z; lra | exists 75%Z; lra | exists 80%Z; lra | exists 85%Z; lra
        | exists 90%Z; lra | exists 95%Z; lra ].

(** Every coordinate of a registered state lies between 0 and 1 and has
    two decimals; a registered state has the five axes and no other key. *)
Lemma registered_coordinate (state_id : string) (st : gmap string R) (p : string) (v : R) :
  assoc DISPLAY_STATE_COORDINATES state_id = Some st → st !! p = Some v →
  0 <= v <= 1 ∧ centesimal v.
Proof.
  unfold DISPLAY_STATE_COORDINATES. simpl.
  repeat (destruct (String.eqb state_id _);
    [intros [= <-] Hv; apply coords_lookup_Some in Hv;
     destruct Hv as [[_ ->]|[[_ ->]|[[_ ->]|[[_ ->]|[_ ->]]]]];
     (split; [lra | centesimal_literal])|]).
  done.
Qed.

Lemma registered_dom (state_id : string) (st : gmap string R) :
  assoc DISPLAY_STATE_COORDINATES state_id = Some st → dom st = axes.
Proof.
  unfold DISPLAY_STATE_COORDINATES. simpl.
  repeat (destruct (String.eqb state_id _); [intros [= <-]; apply coords_dom|]).
  done.
Qed.

Lemma centesimal_round4 (v : R) : centesimal v → round4 v = v.
Proof. intros [n Hn]. apply (round4_decimal (n * 100)). rewrite mult_IZR. lra. Qed.

Lemma centesimal_minus (x y : R) : centesimal x → centesimal y → centesimal (y - x).
Proof. intros [n Hn] [m Hm]. exists (m - n)%Z. rewrite minus_IZR. lra. Qed.

Lemma interpolate_state_dom (state_a state_b : gmap string R) (alpha : R)
    (st : gmap string R) :
  interpolate_state state_a state_b alpha = Ret st → dom st = axes.
Proof.
  unfold interpolate_state, DISPLAY_PARAMETER_NAMES. simpl. unfold getitem.
  repeat (match goal with
          | |- context [?m !! ?k] =>
              lazymatch m with
              | state_a => destruct (state_a !! k)
              | state_b => destruct (state_b !! k)
              end
          end; simpl; try done).
  intros [= <-]. unfold axes, DISPLAY_PARAMETER_NAMES.
  rewrite !dom_insert_L, dom_empty_L. simpl. set_solver.
Qed.

Lemma distance_loop_dom (a b components : gmap string R) (total_sq : R) :
  distance_loop a b = Ret (components, total_sq) → dom components = axes.
Proof.
  unfold distance_loop, DISPLAY_PARAMETER_NAMES. simpl. unfold getitem.
  repeat (match goal with
          | |- context [?m !! ?k] =>
              lazymatch m with
              | a => destruct (a !! k)
              | b => destruct (b !! k)
              end
          end; simpl; try done).
  intros [= <- _]. unfold axes, DISPLAY_PARAMETER_NAMES.
  rewrite !dom_insert_L, dom_empty_L. simpl. set_solver.
Qed.

End registered_coordinates.

(** ** The distance tool on registered states *)

Section distance_extra.

(** X3: between registered states the rounding changes nothing: the
    reported difference on each axis is exactly second minus first, the
    differences of (B, A) are the negations of those of (A, B), and the
    report has the five axes and no other key. *)
Theorem state_distance_differences_exact (state_a_id state_b_id : string) :
  registered state_a_id → registered state_b_id →
  ∃ a b pab pba,
    assoc DISPLAY_STATE_COORDINATES state_a_id = Some a
    ∧ assoc DISPLAY_STATE_COORDINATES state_b_id = Some b
    ∧ compute_display_state_distance state_a_id state_b_id = Ret (Payload pab)
    ∧ compute_display_state_distance state_b_id state_a_id = Ret (Payload pba)
    ∧ dom (parameter_differences pab) = axes
    ∧ ∀ q, q ∈ DISPLAY_PARAMETER_NAMES →
        ∃ x y, a !! q = Some x ∧ b !! q = Some y
               ∧ parameter_differences pab !! q = Some (y - x)
               ∧ parameter_differences pba !! q = Some (- (y - x)).
Proof.
  intros Ha Hb.
  destruct (state_distance_Payload state_a_id state_b_id Ha Hb)
    as (a & b & pab & Hsa & Hsb & Hab & _ & _ & _ & Hcab).
  destruct (state_distance_Payload state_b_id state_a_id Hb Ha)
    as (b' & a' & pba & Hsb' & Hsa' & Hba & _ & _ & _ & Hcba).
  assert (a' = a) as -> by congruence. assert (b' = b) as -> by congruence.
  exists a, b, pab, pba. split_and!; try done.
  - pose proof Hab as Hab'. unfold compute_display_state_distance in Hab'.
    apply contains_registered in Ha. apply contains_registered in Hb.
    rewrite Ha, Hb in Hab'. simpl in Hab'. unfold getreg in Hab'.
    rewrite Hsa, Hsb in Hab'. simpl in Hab'.
    destruct (distance_loop a b) as [e|[components total_sq]] eqn:Hloop; [done|].
    simpl in Hab'. injection Hab' as <-. simpl. by eapply distance_loop_dom.
  - intros q Hq.
    destruct (Hcab q Hq) as (x & y & Hx & Hy & Hxy).
    destruct (Hcba q Hq) as (y' & x' & Hy' & Hx' & Hyx).
    assert (x' = x) as -> by congruence. assert (y' = y) as -> by congruence.
    destruct (registered_coordinate _ _ _ _ Hsa Hx) as [_ Cx].
    destruct (registered_coordinate _ _ _ _ Hsb Hy) as [_ Cy].
    exists x, y. split_and!; try done.
    + by rewrite Hxy, (centesimal_round4 _ (centesimal_minus _ _ Cx Cy)).
    + rewrite Hyx, (centesimal_round4 _ (centesimal_minus _ _ Cy Cx)).
      f_equal. lra.
Qed.

Lemma state_distance_differences_exact_witness :
  ∃ a b pab pba,
    assoc DISPLAY_STATE_COORDINATES "abundance_wall" = Some a
    ∧ assoc DISPLAY_STATE_COORDINATES "narrative_journey" = Some b
    ∧ compute_display_state_distance "abundance_wall" "narrative_journey"
      = Ret (Payload pab)
    ∧ compute_display_state_distance "narrative_journey" "abundance_wall"
      = Ret (Payload pba)
    ∧ dom (parameter_differences pab) = axes
    ∧ ∀ q, q ∈ DISPLAY_PARAMETER_NAMES →
        ∃ x y, a !! q = Some x ∧ b !! q = Some y
               ∧ parameter_differences pab !! q = Some (y - x)
               ∧ parameter_differences pba !! q = Some (- (y - x)).
Proof.
  apply (state_distance_differences_exact "abundance_wall" "narrative_journey");
    by eexists.
Defined.

End distance_extra.

(** ** The points of a generated sequence *)

Section sequence_extra.




Lemma blend_between (x y alpha : R) :
  0 <= alpha <= 1 → Rmin x y <= x * (1 - alpha) + y * alpha <= Rmax x y.
Proof.
  intros H. unfold Rmin, Rmax. destruct (Rle_dec x y); nra.
Qed.

Lemma centesimal_Rmin (x y : R) : centesimal x → centesimal y → centesimal (Rmin x y).
Proof. intros. unfold Rmin. by destruct (Rle_dec x y). Qed.

Lemma centesimal_Rmax (x y : R) : centesimal x → centesimal y → centesimal (Rmax x y).
Proof. intros. unfold Rmax. by destruct (Rle_dec x y). Qed.

Lemma round4_blend_between (x y alpha : R) :
  centesimal x → centesimal y → 0 <= alpha <= 1 →
  Rmin x y <= round4 (x * (1 - alpha) + y * alpha) <= Rmax x y.
Proof.
  intros Cx Cy Ha.
  destruct (centesimal_Rmin x y Cx Cy) as [n Hn].
  destruct (centesimal_Rmax x y Cx Cy) as [m Hm].
  apply (round4_between _ _ _ (n * 100) (m * 100)).
  - rewrite mult_IZR. lra.
  - rewrite mult_IZR. lra.
  - by apply blend_between.
Qed.





End sequence_extra.

(** ** Shape of the waveform *)

Section waveform_extra.

Lemma sequence_points_states (state_a state_b : gmap string R) (alphas : list R)
    (pts : list seq_point) :
  sequence_points state_a state_b alphas = Ret pts →
  mapM (interpolate_state state_a state_b) alphas = Ret (sp_state <$> pts).
Proof.
  intros Hpts. unfold sequence_points in Hpts. apply mapM_Ret in Hpts.
  apply mapM_Ret. apply Forall2_same_length_lookup_2.
  - apply Forall2_length in Hpts. rewrite length_enumerate in Hpts.
    by rewrite length_fmap.
  - intros i alpha st Hal Hst. rewrite list_lookup_fmap in Hst.
    destruct (pts !! i) as [pt|] eqn:Hpt; [|done]. injection Hst as <-.
    pose proof (Forall2_lookup_lr _ _ _ _ _ _ Hpts (lookup_enumerate _ _ _ Hal) Hpt)
      as Hmk. simpl in Hmk.
    destruct (interpolate_state state_a state_b alpha) as [e|st]; [done|].
    simpl in Hmk. by injection Hmk as <-.
Qed.

Lemma generate_oscillation_first (num_steps : Z) (num_cycles : R) (pattern : string) :
  (0 < num_steps)%Z →
  _generate_oscillation num_steps num_cycles pattern !! 0%nat
  = Some (if String.eqb pattern "sinusoidal" then 0.5
          else if String.eqb pattern "triangular" then 0
          else if String.eqb pattern "square" then 0
          else 0.5).
Proof.
  intros Hn. unfold _generate_oscillation.
  rewrite list_lookup_fmap, lookup_range by lia. simpl. f_equal.
  change (Z.of_nat 0) with 0%Z.
  assert (2 * PI * num_cycles * 0 / IZR num_steps = 0) as ->
    by (unfold Rdiv; ring).
  assert (0 / (2 * PI) = 0) as -> by (unfold Rdiv; ring).
  rewrite sin_0, (mod1_small 0) by lra.
  rewrite (proj2 (Rltb_true 0 0.5)) by lra.
  repeat destruct (String.eqb _ _); lra.
Qed.

(** X7: where a sequence starts.  With no phase offset (zero or less) and
    a non-empty sequence, the triangular and square patterns start at
    phase 0 with state A itself, while the sinusoidal pattern starts at
    phase 0.5. *)
Theorem sequence_first_point (state_a_id state_b_id pattern : string)
    (num_cycles steps_per_cycle : Z) (phase_offset : R) :
  registered state_a_id → registered state_b_id →
  (0 < num_cycles * steps_per_cycle)%Z → phase_offset <= 0 →
  ∃ state_a p pt,
    assoc DISPLAY_STATE_COORDINATES state_a_id = Some state_a
    ∧ generate_display_rhythmic_sequence state_a_id state_b_id pattern
        num_cycles steps_per_cycle phase_offset = Ret (Payload p)
    ∧ seq_sequence p !! 0%nat = Some pt
    ∧ (pattern = "triangular" ∨ pattern = "square" →
       sp_phase pt = 0 ∧ sp_state pt = state_a)
    ∧ (pattern = "sinusoidal" → sp_phase pt = 0.5).
Proof.
  intros Ha Hb Hpos Hpo.
  destruct (rhythmic_sequence_Payload state_a_id state_b_id pattern
              num_cycles steps_per_cycle phase_offset Ha Hb)
    as (sa & sb & pts & Hsa & Hsb & Hpts & Hlen & ->).
  rewrite apply_phase_offset_nonpos in Hpts by done.
  pose proof (registered_has_axes _ _ Hsa) as Haxa.
  pose proof (registered_has_axes _ _ Hsb) as Haxb.
  destruct (sequence_points_Ret sa sb
              (_generate_oscillation (num_cycles * steps_per_cycle)
                 (IZR num_cycles) pattern) Haxa Haxb) as (pts' & Hpts' & _ & Hpt).
  rewrite Hpts in Hpts'. injection Hpts' as <-.
  pose proof (generate_oscillation_first (num_cycles * steps_per_cycle)
                (IZR num_cycles) pattern Hpos) as H0.
  destruct (Hpt _ _ H0) as (pt & Hpt0 & _ & Hphase & Hax).
  exists sa. eexists. exists pt. split_and!; try done.
  - intros Hp.
    assert ((if String.eqb pattern "sinusoidal" then 0.5
             else if String.eqb pattern "triangular" then 0
             else if String.eqb pattern "square" then 0 else 0.5) = 0) as E
      by (destruct Hp as [-> | ->]; reflexivity).
    rewrite E in Hphase, Hax. split; [by rewrite Hphase, round4_0|].
    assert (dom (sp_state pt) = axes) as Hdom.
    { pose proof Hpts as Hm. unfold sequence_points in Hm. apply mapM_Ret in Hm.
      destruct (Forall2_lookup_r _ _ _ _ _ Hm Hpt0) as ([j al] & _ & Hmk).
      destruct (interpolate_state sa sb al) as [e|st] eqn:Hst; [done|].
      simpl in Hmk. injection Hmk as <-. simpl. by eapply interpolate_state_dom. }
    apply map_eq. intros q.
    destruct (decide (q ∈ DISPLAY_PARAMETER_NAMES)) as [Hq|Hq].
    + destruct (Hax q Hq) as (x & y & Hx & Hy & Hv). rewrite Hv, Hx. f_equal.
      destruct (registered_coordinate _ _ _ _ Hsa Hx) as [_ Cx].
      replace (x * (1 - 0) + y * 0) with x by lra. by apply centesimal_round4.
    + assert (q ∉ axes) as Hq' by (unfold axes; set_solver).
      rewrite (proj1 (not_elem_of_dom _ _)) by (by rewrite Hdom).
      rewrite (proj1 (not_elem_of_dom _ _)); [done|].
      by rewrite (registered_dom _ _ Hsa).
  - intros ->. simpl in Hphase. rewrite Hphase. apply (round4_decimal 5000). lra.
Qed.

Lemma sequence_first_point_witness :
  ∃ state_a p pt,
    assoc DISPLAY_STATE_COORDINATES "abundance_wall" = Some state_a
    ∧ generate_display_rhythmic_sequence "abundance_wall" "luxury_isolation"
        "triangular" 2 30 0 = Ret (Payload p)
    ∧ seq_sequence p !! 0%nat = Some pt
    ∧ ("triangular" = "triangular" ∨ "triangular" = "square" →
       sp_phase pt = 0 ∧ sp_state pt = state_a)
    ∧ ("triangular" = "sinusoidal" → sp_phase pt = 0.5).
Proof.
  apply (sequence_first_point "abundance_wall" "luxury_isolation" "triangular" 2 30 0);
    [by eexists | by eexists | lia | lra].
Defined.

End waveform_extra.

(** ** Preset trajectories *)

Section presets_extra.

(** X8: for every registered preset the trajectory helper returns
    exactly num_cycles * steps_per_cycle points (at least one); every point
    has the five axes and no other key, each value between the values of
    the preset's two states. *)
Theorem preset_trajectory_shape (preset_name : string) (config : preset) :
  assoc DISPLAY_RHYTHMIC_PRESETS preset_name = Some config →
  ∃ trajectory state_a state_b,
    _generate_preset_trajectory preset_name = Ret trajectory
    ∧ assoc DISPLAY_STATE_COORDINATES (preset_state_a config) = Some state_a
    ∧ assoc DISPLAY_STATE_COORDINATES (preset_state_b config) = Some state_b
    ∧ Z.of_nat (length trajectory)
      = (preset_num_cycles config * preset_steps_per_cycle config)%Z
    ∧ (1 ≤ length trajectory)%nat
    ∧ (∀ i st, trajectory !! i = Some st →
         dom st = axes
         ∧ ∀ q, q ∈ DISPLAY_PARAMETER_NAMES →
             ∃ x y v, state_a !! q = Some x ∧ state_b !! q = Some y
                      ∧ st !! q = Some v ∧ Rmin x y <= v <= Rmax x y).
Proof.
  intros Hc.
  destruct (preset_trajectory_Ret _ _ Hc) as (trajectory & Ht & Hlen).
  destruct (preset_configured _ _ Hc) as ([sa Hsa] & [sb Hsb] & Hpos).
  pose proof (registered_has_axes _ _ Hsa) as Haxa.
  pose proof (registered_has_axes _ _ Hsb) as Haxb.
  exists trajectory, sa, sb.
  pose proof Ht as Hm. unfold _generate_preset_trajectory, getreg in Hm.
  rewrite Hc in Hm. cbv beta iota delta [mbind result_bind bind] in Hm.
  rewrite Hsa, Hsb in Hm. cbv beta iota zeta in Hm. apply mapM_Ret in Hm.
  set (alphas := _generate_oscillation
         (preset_num_cycles config * preset_steps_per_cycle config)
         (IZR (preset_num_cycles config)) (preset_pattern config)) in *.
  assert (∀ i st, trajectory !! i = Some st →
            ∃ alpha, alphas !! i = Some alpha ∧ 0 <= alpha <= 1
                     ∧ interpolate_state sa sb alpha = Ret st) as Hsrc.
  { intros i st Hi. destruct (Forall2_lookup_r _ _ _ _ _ Hm Hi) as (alpha & Hal & Hst).
    exists alpha. split; [done|]. split; [|done].
    pose proof (generate_oscillation_unit
                  (preset_num_cycles config * preset_steps_per_cycle config)
                  (IZR (preset_num_cycles config)) (preset_pattern config)) as Hu.
    rewrite Forall_forall in Hu. apply Hu. by eapply list_elem_of_lookup_2. }
  split_and!; try done.
  - lia.
  - lia.
  - intros i st Hi. destruct (Hsrc i st Hi) as (alpha & _ & Halpha & Hst).
    split; [by eapply interpolate_state_dom|].
    intros q Hq.
    destruct (interpolate_state_Ret sa sb alpha Haxa Haxb) as (st' & Hst' & Hax).
    rewrite Hst in Hst'. injection Hst' as <-.
    destruct (Hax q Hq) as (x & y & Hx & Hy & Hv).
    destruct (registered_coordinate _ _ _ _ Hsa Hx) as [_ Cx].
    destruct (registered_coordinate _ _ _ _ Hsb Hy) as [_ Cy].
    exists x, y. eexists. split; [done|]. split; [done|]. split; [done|].
    apply (round4_blend_between x y alpha Cx Cy Halpha).
Qed.

Lemma preset_trajectory_shape_witness :
  ∃ trajectory state_a state_b,
    _generate_preset_trajectory "narrative_shift" = Ret trajectory
    ∧ assoc DISPLAY_STATE_COORDINATES "editorial_minimal" = Some state_a
    ∧ assoc DISPLAY_STATE_COORDINATES "narrative_journey" = Some state_b
    ∧ Z.of_nat (length trajectory) = (4 * 12)%Z
    ∧ (1 ≤ length trajectory)%nat
    ∧ (∀ i st, trajectory !! i = Some st →
         dom st = axes
         ∧ ∀ q, q ∈ DISPLAY_PARAMETER_NAMES →
             ∃ x y v, state_a !! q = Some x ∧ state_b !! q = Some y
                      ∧ st !! q = Some v ∧ Rmin x y <= v <= Rmax x y).
Proof.
  exact (preset_trajectory_shape "narrative_shift" _ eq_refl).
Defined.

(** X9: the preset tool answers an unknown name with the error object
    "Unknown preset: <name>".  For a registered preset it returns a payload
    whose [total_steps] is num_cycles * steps_per_cycle and whose [period]
    is steps_per_cycle, and its trajectory is, state for state, the
    sequence that the sequence tool returns for the preset's two states,
    pattern and cycle configuration with phase offset 0. *)
Theorem apply_preset_matches_sequence (preset_name : string) :
  match assoc DISPLAY_RHYTHMIC_PRESETS preset_name with
  | None =>
      apply_display_rhythmic_preset preset_name
      = Ret (ErrorObj ("Unknown preset: " +:+ preset_name))
  | Some config =>
      ∃ pp sp,
        apply_display_rhythmic_preset preset_name = Ret (Payload pp)
        ∧ generate_display_rhythmic_sequence (preset_state_a config)
            (preset_state_b config) (preset_pattern config)
            (preset_num_cycles config) (preset_steps_per_cycle config) 0
          = Ret (Payload sp)
        ∧ pp_trajectory pp = sp_state <$> seq_sequence sp
        ∧ pp_total_steps pp
          = (preset_num_cycles config * preset_steps_per_cycle config)%Z
        ∧ pp_total_steps pp = seq_total_steps sp
        ∧ pp_period pp = preset_steps_per_cycle config
        ∧ pp_state_a pp = preset_state_a config
        ∧ pp_state_b pp = preset_state_b config
        ∧ pp_pattern pp = preset_pattern config
  end.
Proof.
  destruct (assoc DISPLAY_RHYTHMIC_PRESETS preset_name) as [config|] eqn:Hc.
  - destruct (preset_trajectory_Ret _ _ Hc) as (trajectory & Ht & Hlen).
    destruct (preset_configured _ _ Hc) as (Ha & Hb & Hpos).
    destruct (rhythmic_sequence_Payload (preset_state_a config) (preset_state_b config)
                (preset_pattern config) (preset_num_cycles config)
                (preset_steps_per_cycle config) 0 Ha Hb)
      as (sa & sb & pts & Hsa & Hsb & Hpts & _ & Hseq).
    rewrite apply_phase_offset_nonpos in Hpts by lra.
    apply sequence_points_states in Hpts.
    pose proof Ht as Hm. unfold _generate_preset_trajectory, getreg in Hm.
    rewrite Hc in Hm. cbv beta iota delta [mbind result_bind bind] in Hm.
    rewrite Hsa, Hsb in Hm. cbv beta iota zeta in Hm.
    assert (Ret trajectory = Ret (sp_state <$> pts)) as Htraj
      by (rewrite <- Hm; exact Hpts).
    injection Htraj as Htraj.
    eexists _, _. split; [|split; [exact Hseq|]].
    + unfold apply_display_rhythmic_preset, contains, getreg. rewrite Hc. simpl.
      rewrite Ht. simpl. reflexivity.
    + simpl. split_and!; try done; lia.
  - unfold apply_display_rhythmic_preset, contains. by rewrite Hc.
Qed.

End presets_extra.

(** ** More on the vocabulary mapper *)

Section vocabulary_extra.

Lemma axis_coords (ct dc ld vi ns : R) :
  axis (coords ct dc ld vi ns) "compositional_tension" = ct
  ∧ axis (coords ct dc ld vi ns) "depth_complexity" = dc
  ∧ axis (coords ct dc ld vi ns) "lighting_drama" = ld
  ∧ axis (coords ct dc ld vi ns) "viewing_intimacy" = vi
  ∧ axis (coords ct dc ld vi ns) "negative_space_ratio" = ns.
Proof. unfold axis, coords. split_and!; by simplify_map_eq. Qed.

Lemma euclidean_coords (a1 a2 a3 a4 a5 b1 b2 b3 b4 b5 : R) :
  euclidean (coords a1 a2 a3 a4 a5) (coords b1 b2 b3 b4 b5)
  = sqrt ((a1 - b1) ^ 2 + (a2 - b2) ^ 2 + (a3 - b3) ^ 2 + (a4 - b4) ^ 2 + (a5 - b5) ^ 2).
Proof.
  unfold euclidean.
  destruct (axis_coords a1 a2 a3 a4 a5) as (-> & -> & -> & -> & ->).
  destruct (axis_coords b1 b2 b3 b4 b5) as (-> & -> & -> & -> & ->).
  done.
Qed.

Lemma euclidean_coords_pos (a1 a2 a3 a4 a5 b1 b2 b3 b4 b5 : R) :
  0 < (a1 - b1) ^ 2 + (a2 - b2) ^ 2 + (a3 - b3) ^ 2 + (a4 - b4) ^ 2 + (a5 - b5) ^ 2 →
  euclidean (coords a1 a2 a3 a4 a5) (coords b1 b2 b3 b4 b5) ≠ 0.
Proof.
  intros H. rewrite euclidean_coords. intros E. apply sqrt_eq_0 in E; lra.
Qed.

(** No two archetypes share their coordinates. *)
Lemma archetypes_apart (j k : nat) (item item' : string * visual_type) :
  DISPLAY_VISUAL_TYPES !! j = Some item → DISPLAY_VISUAL_TYPES !! k = Some item' →
  euclidean (vt_coords item.2) (vt_coords item'.2) = 0 → j = k.
Proof.
  intros Hj Hk.
  destruct j as [|[|[|[|[|j]]]]]; [..|done];
    (destruct k as [|[|[|[|[|k]]]]]; [..|done]);
    injection Hj as <-; injection Hk as <-; try done;
    simpl; intros E; exfalso; revert E; apply euclidean_coords_pos; lra.
Qed.

(** X10: every archetype is its own nearest neighbour.  The coordinates
    of a registered archetype map to that archetype, at distance 0, for
    every strength. *)
Theorem archetype_maps_to_itself (k : nat) (name : string) (vt : visual_type)
    (strength : R) :
  DISPLAY_VISUAL_TYPES !! k = Some (name, vt) →
  ∃ v, _extract_visual_vocabulary (vt_coords vt) strength = Ret v
       ∧ vocab_nearest_type v = name
       ∧ vocab_distance v = Fin 0
       ∧ vocab_keywords v = keyword_slice strength (vt_keywords vt).
Proof.
  intros Hk.
  destruct (extract_visual_vocabulary_spec (vt_coords vt) strength)
    as (k' & name' & vt' & Hk' & _ & Hv & Hmin & _).
  pose proof (Hmin k _ Hk) as Hle. simpl in Hle. rewrite euclidean_self in Hle.
  pose proof (euclidean_nonneg (vt_coords vt) (vt_coords vt')) as Hge.
  assert (euclidean (vt_coords vt) (vt_coords vt') = 0) as E by lra.
  assert (k = k') as <- by (by eapply (archetypes_apart k k' (name, vt) (name', vt'))).
  rewrite Hk in Hk'. injection Hk' as <- <-.
  eexists. split; [exact Hv|]. simpl. by rewrite euclidean_self, round4_0.
Qed.

Lemma archetype_maps_to_itself_witness :
  ∃ v, _extract_visual_vocabulary (coords 0.15 0.15 0.50 0.80 0.85) 1 = Ret v
       ∧ vocab_nearest_type v = "editorial_cool"
       ∧ vocab_distance v = Fin 0
       ∧ vocab_keywords v
         = keyword_slice 1
             [ "minimal editorial composition with deliberate asymmetry";
               "crisp daylight-balanced cross-lighting at 5600K";
               "clean white or pale grey backdrop";
               "precise typographic-scale spatial intervals";
               "shallow depth single focal plane";
               "gallery-like negative space surrounding subject";
               "close-inspection detail-revealing perspective" ].
Proof.
  exact (archetype_maps_to_itself 3 "editorial_cool" _ 1 eq_refl).
Defined.






End vocabulary_extra.

(** ** More on keyframes and the prompt tool *)

Section prompt_extra.

Lemma keyframe_at_inv (trajectory : list (gmap string R)) (style_modifier : string)
    (idx : Z) (kf : keyframe) :
  keyframe_at trajectory style_modifier idx = Ret kf →
  kf_step kf = idx
  ∧ index trajectory idx = Ret (kf_state kf)
  ∧ _extract_visual_vocabulary (kf_state kf) 1.0 = Ret (kf_vocabulary kf)
  ∧ kf_prompt kf = prompt_of style_modifier (kf_vocabulary kf).
Proof.
  unfold keyframe_at. destruct (index trajectory idx) as [e|st] eqn:Hst; [done|].
  simpl. destruct (_extract_visual_vocabulary st 1.0) as [e|v] eqn:Hv; [done|].
  simpl. by intros [= <-].
Qed.

Lemma keyframes_steps (trajectory : list (gmap string R)) (style_modifier : string)
    (indices : list Z) (kfs : list keyframe) :
  Forall2 (λ idx kf, keyframe_at trajectory style_modifier idx = Ret kf) indices kfs →
  kf_step <$> kfs = indices.
Proof.
  induction 1 as [|idx kf indices kfs Hkf _ IH]; [done|].
  rewrite fmap_cons, IH. f_equal. by apply keyframe_at_inv in Hkf as [-> _].
Qed.

Lemma NoDup_range (n : Z) : NoDup (range n).
Proof.
  unfold range. apply NoDup_fmap_2; [apply Nat2Z.inj'|apply NoDup_seq].
Qed.

(** X13: when [keyframe_count] does not exceed the length L of the
    trajectory, the clamp never applies: the i-th keyframe sits at index
    i * floor(L / keyframe_count), and all keyframes are at distinct
    positions of the trajectory. *)
Theorem keyframes_distinct (trajectory : list (gmap string R))
    (style_modifier : string) (keyframe_count : Z) :
  (0 < keyframe_count <= Z.of_nat (length trajectory))%Z →
  let L := Z.of_nat (length trajectory) in
  ∃ kfs,
    sequence_keyframes trajectory style_modifier keyframe_count = Ret kfs
    ∧ kf_step <$> kfs = (λ i : Z, i * (L / keyframe_count))%Z <$> range keyframe_count
    ∧ NoDup (kf_step <$> kfs)
    ∧ Forall (λ kf, (0 <= kf_step kf <= L - 1)%Z) kfs.
Proof.
  intros Hk L.
  destruct (sequence_keyframes_Ret trajectory style_modifier keyframe_count)
    as (kfs & Hkfs & Hall); [lia..|]. fold L in Hall.
  apply keyframes_steps in Hall.
  assert (1 <= L / keyframe_count)%Z as Hq.
  { apply Z.div_le_lower_bound; lia. }
  assert (keyframe_count * (L / keyframe_count) <= L)%Z as Hm
    by (apply Z.mul_div_le; lia).
  assert (kf_step <$> kfs
          = (λ i : Z, i * (L / keyframe_count))%Z <$> range keyframe_count) as Hsteps.
  { rewrite Hall. apply list_fmap_ext. intros i j Hj%list_elem_of_lookup_2%elem_of_range.
    rewrite Z.max_r by lia. nia. }
  exists kfs. split_and!; try done.
  - rewrite Hsteps. apply NoDup_fmap_2; [|apply NoDup_range].
    intros i j Hij. nia.
  - apply Forall_fmap with (f := kf_step) (P := λ s, (0 <= s <= L - 1)%Z).
    rewrite Hsteps. apply Forall_fmap, Forall_forall.
    intros i Hi%elem_of_range. simpl. nia.
Qed.

Lemma keyframes_distinct_witness :
  let trajectory := replicate 10 (coords 0.10 0.40 0.35 0.85 0.90) in
  let L := Z.of_nat (length trajectory) in
  ∃ kfs,
    sequence_keyframes trajectory "" 3 = Ret kfs
    ∧ kf_step <$> kfs = (λ i : Z, i * (L / 3))%Z <$> range 3
    ∧ NoDup (kf_step <$> kfs)
    ∧ Forall (λ kf, (0 <= kf_step kf <= L - 1)%Z) kfs.
Proof.
  apply (keyframes_distinct (replicate 10 (coords 0.10 0.40 0.35 0.85 0.90)) "" 3).
  simpl. lia.
Defined.

(** X14: the edges of sequence mode.  An empty or unknown preset name is
    answered with an error object, whatever the other arguments; for a
    registered preset a [keyframe_count] of 0 raises ZeroDivisionError,
    and a negative one gives a payload without keyframes. *)
Theorem sequence_mode_edges (preset_name : string)
    (custom_state : option (gmap string R)) (style_modifier : string) :
  match assoc DISPLAY_RHYTHMIC_PRESETS preset_name with
  | None =>
      ∀ keyframe_count,
        generate_display_attractor_prompt preset_name custom_state "sequence"
          style_modifier keyframe_count
        = Ret (ErrorObj
                 ("Sequence mode requires valid preset_name. Available: "
                  +:+ "['seasonal_transition', 'day_night_cycle', 'intimacy_sweep', "
                  +:+ "'drama_pulse', 'narrative_shift']"))
  | Some config =>
      generate_display_attractor_prompt preset_name custom_state "sequence"
        style_modifier 0 = Raise ZeroDivisionError
      ∧ ∀ keyframe_count, (keyframe_count < 0)%Z →
          generate_display_attractor_prompt preset_name custom_state "sequence"
            style_modifier keyframe_count
          = Ret (Payload (SequencePrompts preset_name (preset_description config)
                            (preset_steps_per_cycle config) 0 []))
  end.
Proof.
  destruct (assoc DISPLAY_RHYTHMIC_PRESETS preset_name) as [config|] eqn:Hc.
  - destruct (preset_trajectory_Ret _ _ Hc) as (trajectory & Ht & _).
    assert (String.eqb preset_name "" = false) as Hne.
    { apply String.eqb_neq. intros ->. discriminate Hc. }
    split.
    + unfold generate_display_attractor_prompt. simpl. rewrite Hne.
      unfold contains. rewrite Hc. simpl. rewrite Ht. simpl. reflexivity.
    + intros kc Hkc. unfold generate_display_attractor_prompt. simpl. rewrite Hne.
      unfold contains, getreg. rewrite Hc. simpl. rewrite Ht. simpl.
      unfold sequence_keyframes, keyframe_indices, floordiv.
      destruct (Z.eqb_spec kc 0); [lia|]. simpl.
      unfold range. rewrite Z2Nat.nonpos by lia. simpl. reflexivity.
  - intros kc. unfold generate_display_attractor_prompt. simpl.
    unfold contains. rewrite Hc. simpl. by rewrite orb_true_r.
Qed.

(** X15: on a registered preset and a positive [keyframe_count] the
    sequence-prompt tool and the prompt tool in sequence mode (whatever
    [custom_state] is passed) return the same payload, with exactly
    [keyframe_count] keyframes.  Keyframe i sits at step
    min(i * max(1, floor(L / keyframe_count)), L - 1), where
    L = num_cycles * steps_per_cycle, and holds the preset trajectory's
    state at that step, the vocabulary of that state at strength 1 and the
    prompt built from it. *)
Theorem sequence_prompts_on_preset (preset_name : string) (config : preset)
    (custom_state : option (gmap string R)) (style_modifier : string)
    (keyframe_count : Z) :
  assoc DISPLAY_RHYTHMIC_PRESETS preset_name = Some config →
  (0 < keyframe_count)%Z →
  let L := (preset_num_cycles config * preset_steps_per_cycle config)%Z in
  ∃ trajectory kfs,
    _generate_preset_trajectory preset_name = Ret trajectory
    ∧ generate_display_sequence_prompts preset_name keyframe_count style_modifier
      = Ret (Payload (SequencePrompts preset_name (preset_description config)
                        (preset_steps_per_cycle config) keyframe_count kfs))
    ∧ generate_display_attractor_prompt preset_name custom_state "sequence"
        style_modifier keyframe_count
      = generate_display_sequence_prompts preset_name keyframe_count style_modifier
    ∧ Z.of_nat (length kfs) = keyframe_count
    ∧ ∀ i kf, kfs !! i = Some kf →
        kf_step kf = Z.min (Z.of_nat i * Z.max 1 (L / keyframe_count)) (L - 1)
        ∧ trajectory !! Z.to_nat (kf_step kf) = Some (kf_state kf)
        ∧ _extract_visual_vocabulary (kf_state kf) 1.0 = Ret (kf_vocabulary kf)
        ∧ kf_prompt kf = prompt_of style_modifier (kf_vocabulary kf).
Proof.
  intros Hc Hk L.
  destruct (attractor_sequence_Payload preset_name custom_state style_modifier
              keyframe_count config Hc Hk) as (trajectory & kfs & Ht & Hkfs & Htool).
  destruct (attractor_sequence_Payload preset_name None style_modifier
              keyframe_count config Hc Hk) as (trajectory' & kfs' & Ht' & Hkfs' & Htool').
  assert (trajectory' = trajectory) as -> by congruence.
  assert (kfs' = kfs) as -> by congruence.
  destruct (preset_trajectory_Ret _ _ Hc) as (trajectory' & Ht'' & Hlen).
  assert (trajectory' = trajectory) as -> by congruence.
  destruct (preset_configured _ _ Hc) as (_ & _ & Hpos).
  assert (Z.of_nat (length trajectory) = L) as HL by (unfold L; lia).
  destruct (sequence_keyframes_Ret trajectory style_modifier keyframe_count)
    as (kfs' & Hkfs'' & Hall); [lia | done |].
  assert (kfs' = kfs) as -> by congruence. rewrite HL in Hall.
  assert (Z.of_nat (length kfs) = keyframe_count) as Hcount.
  { rewrite <- (Forall2_length _ _ _ Hall), length_fmap, length_range. lia. }
  exists trajectory, kfs. split_and!; try done.
  - unfold generate_display_sequence_prompts. by rewrite Htool', Hcount.
  - intros i kf Hi.
    destruct (Forall2_lookup_r _ _ _ _ _ Hall Hi) as (idx & Hidx & Hkf).
    rewrite list_lookup_fmap in Hidx.
    destruct (range keyframe_count !! i) as [j|] eqn:Hj; [|done].
    injection Hidx as <-.
    assert (j = Z.of_nat i) as ->.
    { pose proof (lookup_lt_Some _ _ _ Hj) as Hlt. rewrite length_range in Hlt.
      rewrite lookup_range in Hj by done. congruence. }
    apply keyframe_at_inv in Hkf as (Hstep & Hidx & Hvoc & Hprompt).
    rewrite Hstep. split_and!; try done.
    destruct (index_Ret trajectory
                (Z.min (Z.of_nat i * Z.max 1 (L / keyframe_count)) (L - 1)))
      as (st & Hst & Hl).
    { rewrite HL. apply keyframe_index_range; lia. }
    rewrite Hidx in Hst. by injection Hst as ->.
Qed.

Lemma sequence_prompts_on_preset_witness :
  let L := (3 * 24)%Z in
  ∃ trajectory kfs,
    _generate_preset_trajectory "seasonal_transition" = Ret trajectory
    ∧ generate_display_sequence_prompts "seasonal_transition" 4 "photorealistic"
      = Ret (Payload (SequencePrompts "seasonal_transition"
                        "Smooth seasonal arc from restrained editorial to theatrical grandeur and back"
                        24 4 kfs))
    ∧ generate_display_attractor_prompt "seasonal_transition" None "sequence"
        "photorealistic" 4
      = generate_display_sequence_prompts "seasonal_transition" 4 "photorealistic"
    ∧ Z.of_nat (length kfs) = 4%Z
    ∧ ∀ i kf, kfs !! i = Some kf →
        kf_step kf = Z.min (Z.of_nat i * Z.max 1 (L / 4)) (L - 1)
        ∧ trajectory !! Z.to_nat (kf_step kf) = Some (kf_state kf)
        ∧ _extract_visual_vocabulary (kf_state kf) 1.0 = Ret (kf_vocabulary kf)
        ∧ kf_prompt kf = prompt_of "photorealistic" (kf_vocabulary kf).
Proof.
  apply (sequence_prompts_on_preset "seasonal_transition" _ None "photorealistic" 4
           eq_refl).
  lia.
Defined.

End prompt_extra.

(** ** Composite mode of the prompt tool *)

Section composite_extra.

Lemma extract_visual_vocabulary_Ret (state : gmap string R) (strength : R) :
  ∃ v, _extract_visual_vocabulary state strength = Ret v ∧ vocab_state v = state.
Proof.
  destruct (extract_visual_vocabulary_spec state strength)
    as (k & name & vt & _ & _ & Hv & _).
  eexists. split; [exact Hv|done].
Qed.



(** X17: how composite mode resolves a name when no custom state is
    given.  A registered state name gives that state, with source
    "canonical_state:<name>"; otherwise a registered preset name gives the
    point at index floor(L / 2) of the preset's trajectory of L points,
    with source "preset_midpoint:<name>"; any other name, the empty one
    included, is answered with an error object. *)
Theorem composite_name_resolution (preset_name mode style_modifier : string)
    (keyframe_count : Z) :
  mode ≠ "sequence" →
  match assoc DISPLAY_STATE_COORDINATES preset_name,
        assoc DISPLAY_RHYTHMIC_PRESETS preset_name with
  | Some state, _ =>
      ∃ v, _extract_visual_vocabulary state 1.0 = Ret v
           ∧ generate_display_attractor_prompt preset_name None mode
               style_modifier keyframe_count
             = Ret (Payload (CompositePrompt ("canonical_state:" +:+ preset_name)
                               (prompt_of style_modifier v) v))
  | None, Some config =>
      ∃ trajectory state v,
        _generate_preset_trajectory preset_name = Ret trajectory
        ∧ trajectory !! Z.to_nat (preset_num_cycles config
                                  * preset_steps_per_cycle config / 2) = Some state
        ∧ _extract_visual_vocabulary state 1.0 = Ret v
        ∧ generate_display_attractor_prompt preset_name None mode
            style_modifier keyframe_count
          = Ret (Payload (CompositePrompt ("preset_midpoint:" +:+ preset_name)
                            (prompt_of style_modifier v) v))
  | None, None =>
      generate_display_attractor_prompt preset_name None mode
        style_modifier keyframe_count
      = Ret (ErrorObj "Provide custom_state dict or valid preset_name/state name.")
  end.
Proof.
  intros Hm. apply String.eqb_neq in Hm.
  unfold generate_display_attractor_prompt. rewrite Hm.
  destruct (assoc DISPLAY_STATE_COORDINATES preset_name) as [state|] eqn:Hs.
  - assert (String.eqb preset_name "" = false) as ->
      by (apply String.eqb_neq; intros ->; discriminate Hs).
    destruct (extract_visual_vocabulary_Ret state 1.0) as (v & Hv & _).
    exists v. split; [done|].
    unfold contains, getreg. rewrite Hs. simpl.
    unfold mbind, result_bind. simpl. rewrite Hv. reflexivity.
  - destruct (assoc DISPLAY_RHYTHMIC_PRESETS preset_name) as [config|] eqn:Hc.
    + assert (String.eqb preset_name "" = false) as ->
        by (apply String.eqb_neq; intros ->; discriminate Hc).
      destruct (preset_trajectory_Ret _ _ Hc) as (trajectory & Ht & Hlen).
      destruct (preset_configured _ _ Hc) as (_ & _ & Hpos).
      destruct (index_Ret trajectory (Z.of_nat (length trajectory) / 2))
        as (state & Hidx & Hl).
      { split; [apply Z.div_pos; lia | apply Z.div_lt_upper_bound; lia]. }
      destruct (extract_visual_vocabulary_Ret state 1.0) as (v & Hv & _).
      exists trajectory, state, v. split_and!; try done.
      * by rewrite Hlen, Z2Nat.id in Hl by lia.
      * unfold contains. rewrite Hs, Hc. simpl. rewrite Ht. simpl.
        rewrite Hidx. simpl. rewrite Hv. reflexivity.
    + unfold contains. rewrite Hs, Hc. by rewrite !andb_false_r.
Qed.

Lemma composite_name_resolution_witness :
  ∃ trajectory state v,
    _generate_preset_trajectory "day_night_cycle" = Ret trajectory
    ∧ trajectory !! Z.to_nat (4 * 20 / 2) = Some state
    ∧ _extract_visual_vocabulary state 1.0 = Ret v
    ∧ generate_display_attractor_prompt "day_night_cycle" None "composite" "" 4
      = Ret (Payload (CompositePrompt ("preset_midpoint:" +:+ "day_night_cycle")
                        (prompt_of "" v) v)).
Proof.
  apply (composite_name_resolution "day_night_cycle" "composite" "" 4). discriminate.
Defined.

End composite_extra.

(** ** Layer 2: the parameter mapping *)

Section layer2.

Lemma pow10_pos (n : nat) : 0 < 10 ^ n.
Proof. apply pow_lt. lra. Qed.

Lemma round_to_mono (n : nat) (x y : R) : x <= y → round_to n x <= round_to n y.
Proof.
  intros Hxy. unfold round_to. pose proof (pow10_pos n) as Hp.
  assert (IZR (round_half_even (x * 10 ^ n)) <= IZR (round_half_even (y * 10 ^ n))).
  { apply IZR_le, round_half_even_mono. nra. }
  apply Rmult_le_compat_r; [|done]. apply Rlt_le, Rinv_0_lt_compat, Hp.
Qed.

Lemma round_to_exact (n : nat) (x : R) (z : Z) :
  x * 10 ^ n = IZR z → round_to n x = x.
Proof.
  intros H. unfold round_to. rewrite H, round_half_even_IZR, <- H.
  pose proof (pow10_pos n). field. lra.
Qed.

Lemma round_half_even_close (x : R) (z : Z) :
  IZR z - 1 / 2 < x < IZR z + 1 / 2 → round_half_even x = z.
Proof.
  intros H. pose proof (round_half_even_near x) as Hn.
  assert (z - 1 < round_half_even x < z + 1)%Z; [|lia].
  split; apply lt_IZR; rewrite ?minus_IZR, ?plus_IZR; lra.
Qed.

(** Rounding to the nearest integer, ties to even, is an odd function. *)
Lemma round_half_even_opp (x : R) : round_half_even (- x) = (- round_half_even x)%Z.
Proof.
  destruct (base_Int_part x) as [H1 H2].
  destruct (Req_dec_T x (IZR (Int_part x))) as [E|NE].
  - rewrite E, <- opp_IZR, !round_half_even_IZR. done.
  - assert (Int_part (- x) = (- Int_part x - 1)%Z) as Hip.
    { symmetry. apply Int_part_spec. rewrite minus_IZR, opp_IZR. lra. }
    unfold round_half_even. rewrite Hip, minus_IZR, opp_IZR.
    repeat destruct (Rlt_dec _ _); try lra; try lia.
    rewrite Z.even_sub, Z.even_opp. simpl.
    destruct (Z.even (Int_part x)); simpl; lia.
Qed.

Lemma round_to_opp (n : nat) (x : R) : round_to n (- x) = - round_to n x.
Proof.
  unfold round_to.
  replace (- x * 10 ^ n) with (- (x * 10 ^ n)) by lra.
  rewrite round_half_even_opp, opp_IZR. pose proof (pow10_pos n). field. lra.
Qed.

(** X18: the golden-ratio offset.  The default mode returns
    0.618033988749895 times the dimension (phi - 1, not 0.382), and the
    minor mode, dimension / phi, differs from it by less than
    10^-15 times the size of the dimension: both modes place the offset
    at about 0.618 of the dimension. *)
Theorem golden_ratio_offset_modes (dimension : R) :
  calculate_golden_ratio_offset dimension false = dimension * 0.618033988749895
  ∧ Rabs (calculate_golden_ratio_offset dimension true
          - calculate_golden_ratio_offset dimension false)
    <= Rabs dimension * 0.000000000000001.
Proof.
  unfold calculate_golden_ratio_offset. split; [lra|].
  replace (dimension * (1 / 1.618033988749895) - dimension * (1.618033988749895 - 1))
    with (dimension * (1 / 1.618033988749895 - (1.618033988749895 - 1))) by lra.
  rewrite Rabs_mult. apply Rmult_le_compat_l; [apply Rabs_pos|].
  apply Rabs_le. lra.
Qed.

Lemma atan_nonneg (x : R) : 0 <= x → 0 <= atan x.
Proof.
  intros [H| <-].
  - rewrite <- atan_0. by apply Rlt_le, atan_increasing.
  - rewrite atan_0. lra.
Qed.

(** X19: the viewing cone.  For a window of non-negative width and
    height seen from a positive distance the computation returns, with a
    horizontal field of view between 0 and 180 degrees, an effective
    height no larger in size than the (rounded) window height, and a focal
    zone whose left edge is not right of its right edge and whose bottom
    is not above its top.  The impact is "compressed" exactly when the
    viewing angle is more than 30 degrees off, in either direction. *)
Theorem viewing_cone_bounds
    (window_width_ft window_height_ft viewing_distance_ft viewing_angle_deg : R) :
  0 <= window_width_ft → 0 <= window_height_ft → 0 < viewing_distance_ft →
  ∃ c,
    calculate_viewing_cone window_width_ft window_height_ft viewing_distance_ft
      viewing_angle_deg = Ret c
    ∧ 0 <= horizontal_fov_deg c <= 180
    ∧ - round_to 2 window_height_ft <= effective_height_ft c
      <= round_to 2 window_height_ft
    ∧ left_ft (focal_zone_coords c) <= right_ft (focal_zone_coords c)
    ∧ bottom_ft (focal_zone_coords c) <= top_ft (focal_zone_coords c)
    ∧ (viewing_angle_impact c = "compressed" ↔ 30 < Rabs viewing_angle_deg)
    ∧ (viewing_angle_impact c = "natural" ↔ Rabs viewing_angle_deg <= 30).
Proof.
  intros Hw Hh Hd. unfold calculate_viewing_cone, fdiv.
  destruct (Req_dec_T (2 * viewing_distance_ft) 0) as [E|_]; [lra|]. simpl.
  eexists. split; [reflexivity|]. simpl.
  set (ratio := window_width_ft / (2 * viewing_distance_ft)).
  assert (0 <= ratio) as Hr.
  { unfold ratio. apply Rmult_le_pos; [done|].
    apply Rlt_le, Rinv_0_lt_compat. lra. }
  pose proof (atan_nonneg ratio Hr) as Ha0.
  destruct (atan_bound ratio) as [_ Ha1].
  pose proof PI_RGT_0 as Hpi.
  assert (0 <= degrees (2 * atan ratio) <= 180) as Hdeg.
  { unfold degrees. split.
    - apply Rmult_le_pos; [lra|]. apply Rlt_le, Rdiv_lt_0_compat; lra.
    - assert (2 * atan ratio * (180 / PI) = (2 * atan ratio / PI) * 180) as ->
        by (field; lra).
      assert (2 * atan ratio / PI <= 1); [|lra].
      apply (Rmult_le_reg_r PI); [lra|].
      unfold Rdiv. rewrite Rmult_assoc, Rinv_l by lra. lra. }
  pose proof (COS_bound (radians viewing_angle_deg)) as Hcos.
  split_and!.
  - rewrite <- (round_to_exact 1 0 0) by (simpl; lra). apply round_to_mono, Hdeg.
  - rewrite <- (round_to_exact 1 180 1800) by (simpl; lra). apply round_to_mono, Hdeg.
  - rewrite <- round_to_opp. apply round_to_mono. nra.
  - apply round_to_mono. nra.
  - apply round_to_mono. lra.
  - apply round_to_mono. lra.
  - destruct (Rltb 30 (Rabs viewing_angle_deg)) eqn:E.
    + apply Rltb_true in E. done.
    + apply Rltb_false in E. split; [done|lra].
  - destruct (Rltb 30 (Rabs viewing_angle_deg)) eqn:E.
    + apply Rltb_true in E. split; [done|lra].
    + apply Rltb_false in E. done.
Qed.

Lemma viewing_cone_bounds_witness :
  ∃ c,
    calculate_viewing_cone 12 8 8 25 = Ret c
    ∧ 0 <= horizontal_fov_deg c <= 180
    ∧ - round_to 2 8 <= effective_height_ft c <= round_to 2 8
    ∧ left_ft (focal_zone_coords c) <= right_ft (focal_zone_coords c)
    ∧ bottom_ft (focal_zone_coords c) <= top_ft (focal_zone_coords c)
    ∧ (viewing_angle_impact c = "compressed" ↔ 30 < Rabs 25)
    ∧ (viewing_angle_impact c = "natural" ↔ Rabs 25 <= 30).
Proof.
  apply (viewing_cone_bounds 12 8 8 25); lra.
Defined.

Lemma fdiv_Ret (x y : R) : y ≠ 0 → fdiv x y = Ret (x / y).
Proof. intros H. unfold fdiv. by destruct (Req_dec_T y 0). Qed.

Lemma fdiv_zero (x : R) : fdiv x 0 = Raise ZeroDivisionError.
Proof. unfold fdiv. by destruct (Req_dec_T 0 0). Qed.

Lemma calculate_viewing_cone_Ret (w h d a : R) :
  d ≠ 0 → ∃ c, calculate_viewing_cone w h d a = Ret c.
Proof.
  intros Hd. unfold calculate_viewing_cone. rewrite fdiv_Ret by lra. by eexists.
Qed.

Lemma sight_line_distance (viewer_context : string) (sight : sight_spec) :
  assoc SIGHT_LINE_GEOMETRY viewer_context = Some sight →
  IZR (sl_viewing_distance_ft sight) ≠ 0
  ∧ ∃ z : Z, sl_optimal_focal_height sight * 10 ^ 3 = IZR z.
Proof.
  unfold SIGHT_LINE_GEOMETRY. simpl.
  repeat (destruct (String.eqb viewer_context _);
          [intros [= <-]; simpl; split; [lra|]|]); [..|done].
  - exists 550%Z. lra.
  - exists 500%Z. lra.
  - exists 600%Z. lra.
  - exists 350%Z. lra.
Qed.

(** The six composition types, with the ratios the mapping reads. *)
Lemma composition_cases (composition_type : string) (comp : composition_spec) :
  assoc COMPOSITION_TYPES composition_type = Some comp →
  (composition_type = "pyramidal"
   ∧ assoc (ct_typical_ratios comp) "apex_height" = Some (Float 0.618))
  ∨ composition_type = "step_progression"
  ∨ composition_type = "radial"
  ∨ (composition_type = "isolation"
     ∧ assoc (ct_typical_ratios comp) "negative_space" = Some (Float 0.70))
  ∨ composition_type = "repetition"
  ∨ composition_type = "triangular_cluster".
Proof.
  unfold COMPOSITION_TYPES. simpl.
  repeat (match goal with
          | |- context [String.eqb composition_type ?k] =>
              destruct (String.eqb_spec composition_type k) as [->|?]
          end;
          [intros [= <-]; simpl;
           first [ by left | by (right; left) | by (do 2 right; left)
                 | by (do 3 right; left) | by (do 4 right; left) | by (do 5 right) ]|]).
  done.
Qed.

(** The mapping on known names: everything up to the three divisions
    succeeds; the focal point is the window size scaled by two ratios
    [kx] and [ky] that depend on the composition type (and, for [ky], on
    the viewer context). *)
Lemma map_parameters_chain (w h : R) (ct ds lf vc : string)
    (comp : composition_spec) (depth : depth_spec) (light : lighting_spec)
    (sight : sight_spec) :
  assoc COMPOSITION_TYPES ct = Some comp → assoc DEPTH_STAGING ds = Some depth →
  assoc LIGHTING_FRAMEWORKS lf = Some light → assoc SIGHT_LINE_GEOMETRY vc = Some sight →
  ∃ cone kx ky nsr,
    calculate_viewing_cone w h (IZR (sl_viewing_distance_ft sight))
      (IZR (sl_viewing_angle sight)) = Ret cone
    ∧ (ct = "isolation" ∨ ct = "triangular_cluster" →
       kx = calculate_golden_ratio_offset 1.0 false)
    ∧ (ct ≠ "isolation" → ct ≠ "triangular_cluster" → kx = 0.50)
    ∧ (ct = "pyramidal" → ky = 0.618)
    ∧ (ct = "radial" → ky = 0.50)
    ∧ (ct = "triangular_cluster" → ky = 0.55)
    ∧ (ct = "isolation" ∨ ct = "step_progression" ∨ ct = "repetition" →
       ky = sl_optimal_focal_height sight)
    ∧ (ct = "isolation" → nsr = Float 0.70)
    ∧ (ct = "repetition" → nsr = Float 0.20)
    ∧ (ct ≠ "isolation" → ct ≠ "repetition" → nsr = Float 0.40)
    ∧ _map_display_parameters_internal w h ct ds lf vc
      = (aspect ← fdiv w h;
         xn ← fdiv (w * kx) w;
         yn ← fdiv (h * ky) h;
         mret {| dp_window_dimensions :=
                   {| width_ft := w; height_ft := h; aspect_ratio := round_to 2 aspect |};
                 dp_composition :=
                   {| co_type := ct;
                      co_primary_focal_point :=
                        {| x_ft := round_to 2 (w * kx);
                           y_ft := round_to 2 (h * ky);
                           x_normalized := round_to 3 xn;
                           y_normalized := round_to 3 yn |};
                      co_eye_movement_pattern := ct_eye_movement comp;
                      co_negative_space_ratio := nsr |};
                 dp_depth_staging :=
                   {| do_strategy := ds;
                      do_zones :=
                        if (ds_depth_zones depth =? 3)%Z then
                          [ ("foreground", {| distance_ft := 1.0; scale := 1.0 |});
                            ("midground", {| distance_ft := 3.5; scale := 0.75 |});
                            ("background", {| distance_ft := 6.0; scale := 0.50 |}) ]
                        else if (ds_depth_zones depth =? 2)%Z then
                          [ ("focal_plane", {| distance_ft := 2.0; scale := 1.0 |});
                            ("background", {| distance_ft := 5.0; scale := 0.70 |}) ]
                        else
                          [ ("single_plane", {| distance_ft := 0.5; scale := 1.0 |}) ];
                      do_spatial_compression := ds_spatial_compression depth |};
                 dp_lighting :=
                   {| lo_framework := lf;
                      lo_key_light_angle_deg := lf_key_angle light;
                      lo_intensity_ratio := lf_key_intensity_ratio light;
                      lo_fill_ratio := lf_fill_ratio light;
                      lo_color_temperature_k := lf_color_temperature light;
                      lo_shadow_quality := lf_shadow_quality light |};
                 dp_viewing_geometry :=
                   {| vo_viewer_context := vc;
                      vo_viewing_angle_deg := sl_viewing_angle sight;
                      vo_viewing_distance_ft := sl_viewing_distance_ft sight;
                      vo_eye_height_in := sl_eye_height_in sight;
                      vo_viewing_cone := cone |} |}).
Proof.
  intros Hc Hd Hl Hs.
  destruct (sight_line_distance _ _ Hs) as [Hdist _].
  destruct (calculate_viewing_cone_Ret w h (IZR (sl_viewing_distance_ft sight))
              (IZR (sl_viewing_angle sight)) Hdist) as [cone Hcone].
  exists cone.
  destruct (composition_cases _ _ Hc) as [[-> Hr]|[->|[->|[[-> Hr]|[->| ->]]]]];
    unfold _map_display_parameters_internal, getreg; rewrite Hc, Hd, Hl, Hs;
    cbv beta iota delta [mbind result_bind bind]; rewrite Hcone; simpl;
    rewrite ?Hr; simpl;
    eexists _, _, _;
    (split_and!; [..|reflexivity]);
    intros; first [ reflexivity | congruence | intuition congruence ].
Qed.

Lemma round3_ratio (d k : R) (z : Z) :
  d ≠ 0 → k * 10 ^ 3 = IZR z → round_to 3 (d * k / d) = k.
Proof.
  intros Hd Hk. replace (d * k / d) with k by (by field).
  by apply (round_to_exact 3 k z).
Qed.

Lemma round3_golden (d : R) :
  d ≠ 0 → round_to 3 (d * calculate_golden_ratio_offset 1.0 false / d) = 0.618.
Proof.
  intros Hd. unfold calculate_golden_ratio_offset.
  set (c := 1.0 * (1.618033988749895 - 1)).
  replace (d * c / d) with c by (by field).
  unfold round_to. rewrite (round_half_even_close _ 618) by (unfold c; simpl; lra).
  simpl. lra.
Qed.

Lemma known_configuration_specs (ct ds lf vc : string) :
  known_configuration ct ds lf vc →
  ∃ comp depth light sight,
    assoc COMPOSITION_TYPES ct = Some comp ∧ assoc DEPTH_STAGING ds = Some depth
    ∧ assoc LIGHTING_FRAMEWORKS lf = Some light
    ∧ assoc SIGHT_LINE_GEOMETRY vc = Some sight.
Proof. intros ([? ?] & [? ?] & [? ?] & [? ?]). by eexists _, _, _, _. Qed.

Lemma example_configuration :
  known_configuration "isolation" "forced_perspective" "soft_luxury" "close_inspection".
Proof. repeat split; by eexists. Qed.

(** X20: the normalised focal point does not depend on the window size.
    For known names and a window of non-zero width and height,
    [x_normalized] is 0.618 for the isolation and triangular_cluster
    compositions and 0.5 for every other one; [y_normalized] is 0.618 for
    pyramidal, 0.5 for radial, 0.55 for triangular_cluster, and the
    viewer context's optimal focal height for isolation, step_progression
    and repetition. *)
Theorem focal_point_normalized (w h : R) (ct ds lf vc : string) :
  known_configuration ct ds lf vc → w ≠ 0 → h ≠ 0 →
  ∃ r sight,
    _map_display_parameters_internal w h ct ds lf vc = Ret r
    ∧ assoc SIGHT_LINE_GEOMETRY vc = Some sight
    ∧ (ct = "isolation" ∨ ct = "triangular_cluster" →
       x_normalized (co_primary_focal_point (dp_composition r)) = 0.618)
    ∧ (ct ≠ "isolation" → ct ≠ "triangular_cluster" →
       x_normalized (co_primary_focal_point (dp_composition r)) = 0.5)
    ∧ (ct = "pyramidal" →
       y_normalized (co_primary_focal_point (dp_composition r)) = 0.618)
    ∧ (ct = "radial" →
       y_normalized (co_primary_focal_point (dp_composition r)) = 0.5)
    ∧ (ct = "triangular_cluster" →
       y_normalized (co_primary_focal_point (dp_composition r)) = 0.55)
    ∧ (ct = "isolation" ∨ ct = "step_progression" ∨ ct = "repetition" →
       y_normalized (co_primary_focal_point (dp_composition r))
       = sl_optimal_focal_height sight).
Proof.
  intros (comp & depth & light & sight & Hc & Hd & Hl & Hs)%known_configuration_specs
         Hw Hh.
  destruct (map_parameters_chain w h ct ds lf vc _ _ _ _ Hc Hd Hl Hs)
    as (cone & kx & ky & nsr & _ & Hx1 & Hx2 & Hy1 & Hy2 & Hy3 & Hy4 & _ & _ & _ & ->).
  destruct (sight_line_distance _ _ Hs) as [_ [z Hz]].
  rewrite !fdiv_Ret by done. simpl.
  eexists _, sight. split; [reflexivity|]. split; [done|]. simpl.
  split_and!.
  - intros H. rewrite (Hx1 H). by apply round3_golden.
  - intros H1 H2. rewrite (Hx2 H1 H2). rewrite (round3_ratio w 0.50 500); [lra|done|lra].
  - intros H. rewrite (Hy1 H). apply (round3_ratio h 0.618 618); [done|lra].
  - intros H. rewrite (Hy2 H). rewrite (round3_ratio h 0.50 500); [lra|done|lra].
  - intros H. rewrite (Hy3 H). apply (round3_ratio h 0.55 550); [done|lra].
  - intros H. rewrite (Hy4 H). by apply (round3_ratio h _ z).
Qed.

Lemma focal_point_normalized_witness :
  ∃ r sight,
    _map_display_parameters_internal 12 8 "isolation" "forced_perspective"
      "soft_luxury" "close_inspection" = Ret r
    ∧ assoc SIGHT_LINE_GEOMETRY "close_inspection" = Some sight
    ∧ ("isolation" = "isolation" ∨ "isolation" = "triangular_cluster" →
       x_normalized (co_primary_focal_point (dp_composition r)) = 0.618)
    ∧ ("isolation" ≠ "isolation" → "isolation" ≠ "triangular_cluster" →
       x_normalized (co_primary_focal_point (dp_composition r)) = 0.5)
    ∧ ("isolation" = "pyramidal" →
       y_normalized (co_primary_focal_point (dp_composition r)) = 0.618)
    ∧ ("isolation" = "radial" →
       y_normalized (co_primary_focal_point (dp_composition r)) = 0.5)
    ∧ ("isolation" = "triangular_cluster" →
       y_normalized (co_primary_focal_point (dp_composition r)) = 0.55)
    ∧ ("isolation" = "isolation" ∨ "isolation" = "step_progression"
       ∨ "isolation" = "repetition" →
       y_normalized (co_primary_focal_point (dp_composition r))
       = sl_optimal_focal_height sight).
Proof.
  apply (focal_point_normalized 12 8 "isolation" "forced_perspective" "soft_luxury"
           "close_inspection" example_configuration); lra.
Defined.

(** X21: when the mapping fails.  It raises KeyError exactly when one of
    the four names is not a key of its table, raises ZeroDivisionError
    when the names are known and the window width or height is zero, and
    returns in every other case; the tool then adds the layer tag and a
    zero token cost to what the mapping returned. *)
Theorem map_parameters_failures (w h : R) (ct ds lf vc : string) :
  (¬ known_configuration ct ds lf vc →
   _map_display_parameters_internal w h ct ds lf vc = Raise KeyError
   ∧ map_display_parameters w h ct ds lf vc = Raise KeyError)
  ∧ (known_configuration ct ds lf vc → w = 0 ∨ h = 0 →
     _map_display_parameters_internal w h ct ds lf vc = Raise ZeroDivisionError
     ∧ map_display_parameters w h ct ds lf vc = Raise ZeroDivisionError)
  ∧ (known_configuration ct ds lf vc → w ≠ 0 → h ≠ 0 →
     ∃ r, _map_display_parameters_internal w h ct ds lf vc = Ret r
          ∧ map_display_parameters w h ct ds lf vc
            = Ret (r, "deterministic_mapping", 0%Z)
          ∧ width_ft (dp_window_dimensions r) = w
          ∧ height_ft (dp_window_dimensions r) = h
          ∧ aspect_ratio (dp_window_dimensions r) = round_to 2 (w / h)).
Proof.
  split_and!.
  - intros Hn.
    assert (_map_display_parameters_internal w h ct ds lf vc = Raise KeyError) as E.
    { unfold _map_display_parameters_internal, getreg.
      destruct (assoc COMPOSITION_TYPES ct) as [comp|] eqn:Hc; [|done].
      destruct (assoc DEPTH_STAGING ds) as [depth|] eqn:Hd; [|done].
      destruct (assoc LIGHTING_FRAMEWORKS lf) as [light|] eqn:Hl; [|done].
      destruct (assoc SIGHT_LINE_GEOMETRY vc) as [sight|] eqn:Hs; [|done].
      exfalso. apply Hn. unfold known_configuration. rewrite Hc, Hd, Hl, Hs.
      repeat split; by eexists. }
    unfold map_display_parameters. by rewrite E.
  - intros (comp & depth & light & sight & Hc & Hd & Hl & Hs)%known_configuration_specs
           H0.
    destruct (map_parameters_chain w h ct ds lf vc _ _ _ _ Hc Hd Hl Hs)
      as (cone & kx & ky & nsr & _ & _ & _ & _ & _ & _ & _ & _ & _ & _ & E).
    assert (_map_display_parameters_internal w h ct ds lf vc = Raise ZeroDivisionError)
      as E'.
    { rewrite E. destruct (Req_dec_T h 0) as [->|Hh].
      - by rewrite (fdiv_zero w).
      - destruct H0 as [->|?]; [|done].
        rewrite (fdiv_Ret 0 h) by done. simpl. by rewrite (fdiv_zero (0 * kx)). }
    unfold map_display_parameters. by rewrite E'.
  - intros (comp & depth & light & sight & Hc & Hd & Hl & Hs)%known_configuration_specs
           Hw Hh.
    destruct (map_parameters_chain w h ct ds lf vc _ _ _ _ Hc Hd Hl Hs)
      as (cone & kx & ky & nsr & _ & _ & _ & _ & _ & _ & _ & _ & _ & _ & E).
    unfold map_display_parameters. rewrite E, !fdiv_Ret by done. simpl.
    eexists. split; [reflexivity|]. by simpl.
Qed.

Lemma depth_cases (ds : string) (depth : depth_spec) :
  assoc DEPTH_STAGING ds = Some depth →
  (ds = "compressed_2d" ∧ ds_depth_zones depth = 1%Z)
  ∨ (ds = "theatrical_depth" ∧ ds_depth_zones depth = 3%Z)
  ∨ (ds = "forced_perspective" ∧ ds_depth_zones depth = 4%Z)
  ∨ (ds = "shallow_focus" ∧ ds_depth_zones depth = 2%Z).
Proof.
  unfold DEPTH_STAGING. simpl.
  repeat (match goal with
          | |- context [String.eqb ds ?k] =>
              destruct (String.eqb_spec ds k) as [->|?]
          end;
          [intros [= <-]; simpl;
           first [ by left | by (right; left) | by (do 2 right; left)
                 | by (do 3 right) ]|]).
  done.
Qed.

(** X22: depth zones and negative space.  For known names and a window
    of non-zero size, the mapping returns three zones (foreground,
    midground, background) for theatrical_depth, two (focal_plane,
    background) for shallow_focus, and the single plane for compressed_2d
    and also for forced_perspective, whose table entry counts four depth
    zones.  The negative-space ratio is 0.70 for isolation, 0.20 for
    repetition and 0.40 for every other composition. *)
Theorem depth_zones_and_negative_space (w h : R) (ct ds lf vc : string) :
  known_configuration ct ds lf vc → w ≠ 0 → h ≠ 0 →
  ∃ r,
    _map_display_parameters_internal w h ct ds lf vc = Ret r
    ∧ (ds = "theatrical_depth" →
       (do_zones (dp_depth_staging r)).*1 = ["foreground"; "midground"; "background"])
    ∧ (ds = "shallow_focus" →
       (do_zones (dp_depth_staging r)).*1 = ["focal_plane"; "background"])
    ∧ (ds = "compressed_2d" ∨ ds = "forced_perspective" →
       (do_zones (dp_depth_staging r)).*1 = ["single_plane"])
    ∧ (ct = "isolation" →
       co_negative_space_ratio (dp_composition r) = Float 0.70)
    ∧ (ct = "repetition" →
       co_negative_space_ratio (dp_composition r) = Float 0.20)
    ∧ (ct ≠ "isolation" → ct ≠ "repetition" →
       co_negative_space_ratio (dp_composition r) = Float 0.40).
Proof.
  intros (comp & depth & light & sight & Hc & Hd & Hl & Hs)%known_configuration_specs
         Hw Hh.
  destruct (map_parameters_chain w h ct ds lf vc _ _ _ _ Hc Hd Hl Hs)
    as (cone & kx & ky & nsr & _ & _ & _ & _ & _ & _ & _ & Hn1 & Hn2 & Hn3 & ->).
  rewrite !fdiv_Ret by done. simpl.
  eexists. split; [reflexivity|]. simpl.
  destruct (depth_cases _ _ Hd) as [[-> ->]|[[-> ->]|[[-> ->]|[-> ->]]]]; simpl;
    split_and!; try done; intros H; try discriminate H;
    destruct H as [H|H]; discriminate H.
Qed.

Lemma depth_zones_and_negative_space_witness :
  ∃ r,
    _map_display_parameters_internal 12 8 "isolation" "forced_perspective"
      "soft_luxury" "close_inspection" = Ret r
    ∧ ("forced_perspective" = "theatrical_depth" →
       (do_zones (dp_depth_staging r)).*1 = ["foreground"; "midground"; "background"])
    ∧ ("forced_perspective" = "shallow_focus" →
       (do_zones (dp_depth_staging r)).*1 = ["focal_plane"; "background"])
    ∧ ("forced_perspective" = "compressed_2d"
       ∨ "forced_perspective" = "forced_perspective" →
       (do_zones (dp_depth_staging r)).*1 = ["single_plane"])
    ∧ ("isolation" = "isolation" →
       co_negative_space_ratio (dp_composition r) = Float 0.70)
    ∧ ("isolation" = "repetition" →
       co_negative_space_ratio (dp_composition r) = Float 0.20)
    ∧ ("isolation" ≠ "isolation" → "isolation" ≠ "repetition" →
       co_negative_space_ratio (dp_composition r) = Float 0.40).
Proof.
  apply (depth_zones_and_negative_space 12 8 "isolation" "forced_perspective"
           "soft_luxury" "close_inspection" example_configuration); lra.
Defined.

End layer2.
